(** * Fractals: escape-time evaluators, colour lookup and viewport state

    A shallow embedding of the two Go programs of the repository
    ([main.go], the Mandelbrot-only viewer, and its sibling with the
    Julia toggle) together with the properties their specification
    states.

    Numbers.  Go's [int] is modelled by [Z]; the only place where an
    [int] could wrap is the toggle's [fractalType + 1], where the
    wrap-around is written out.  Go's [float64] is modelled twice:

    - in the main development by the real numbers [R] (exact
      arithmetic, [math.Log] as [ln], [math.Pow] as [Rpower]): this is
      the reading under which bounds and monotonicity are stated.  The
      two library functions agree with [ln] and [Rpower] on positive
      arguments, and the programs call them on nothing else (lemma
      [escape_loop_escaped] for the logarithms; the base of the power
      is [1 + zoomSpeed]);
    - in [Module Binary64] by Rocq's primitive IEEE-754 binary64
      numbers, with [math.Log] a parameter: this is the reading needed
      to speak about infinities and NaN.  [Module Binary64Zoom] has
      the zoom step and [Module Binary64UI] the slider on the same
      numbers. *)

From Stdlib Require Import String.
From Stdlib Require Import Reals Lra Lia ZArith List Bool Floats Psatz.
Import ListNotations.

Local Open Scope R_scope.

(** ** Comparisons and conversions of the real-number reading *)

Definition Rleb (a b : R) : bool := if Rle_dec a b then true else false.

(** [float64(n)] for an [int] n. *)
Definition float64 (n : Z) : R := IZR n.

(** [int(v)] for a [float64] v: the fraction is discarded (truncation
    towards zero).  Go defines the conversion only when the truncated
    value fits an [int]; see [int_representable]. *)
Definition int (v : R) : Z := if Rle_dec 0 v then Zfloor v else Zceil v.

Definition int_representable (v : R) : Prop :=
  - 9223372036854775809 < v < 9223372036854775808.

(** Go's [int] addition, wrapping in 64 bits. *)
Definition int_wrap (z : Z) : Z :=
  ((z + 9223372036854775808) mod 18446744073709551616 - 9223372036854775808)%Z.

(** ** Escape evaluators *)

(** The [for] loop of [mandelbrot], unrolled at most [fuel] times; it
    returns the values of [x], [y] and [iteration] at the exit. *)
Fixpoint mandelbrot_loop (fuel : nat) (cx cy : R) (maxIter : Z)
         (x y : R) (iteration : Z) : R * R * Z :=
  match fuel with
  | O => (x, y, iteration)
  | S fuel' =>
      if Rleb (x * x + y * y) 4 && (iteration <? maxIter)%Z then
        let xTemp := x * x - y * y + cx in
        let y := 2 * x * y + cy in
        let x := xTemp in
        mandelbrot_loop fuel' cx cy maxIter x y (iteration + 1)%Z
      else (x, y, iteration)
  end.

(** [func mandelbrot(cx, cy float64, maxIter int) float64].  The loop
    runs while [iteration < maxIter] and [iteration] starts at 0, so
    [maxIter] rounds of fuel are enough (lemmas [escape_loop_exit] and
    [mandelbrot_loop_fuel]). *)
Definition mandelbrot (cx cy : R) (maxIter : Z) : R :=
  let '(x, y, iteration) :=
    mandelbrot_loop (Z.to_nat maxIter) cx cy maxIter 0 0 0 in
  if (iteration <? maxIter)%Z then
    let logZn := ln (x * x + y * y) / 2 in
    float64 iteration + 1 - ln logZn / ln 2
  else float64 maxIter.

(** The [for] loop of [julia]. *)
Fixpoint julia_loop (fuel : nat) (cx cy : R) (maxIter : Z)
         (x y : R) (iteration : Z) : R * R * Z :=
  match fuel with
  | O => (x, y, iteration)
  | S fuel' =>
      if Rleb (x * x + y * y) 4 && (iteration <? maxIter)%Z then
        let xTemp := x * x - y * y + cx in
        let y := 2 * x * y + cy in
        let x := xTemp in
        julia_loop fuel' cx cy maxIter x y (iteration + 1)%Z
      else (x, y, iteration)
  end.

(** [func julia(x, y, cx, cy float64, maxIter int) float64]. *)
Definition julia (x y cx cy : R) (maxIter : Z) : R :=
  let '(x, y, iteration) :=
    julia_loop (Z.to_nat maxIter) cx cy maxIter x y 0 in
  if (iteration <? maxIter)%Z then
    let logZn := ln (x * x + y * y) / 2 in
    float64 iteration + 1 - ln logZn / ln 2
  else float64 maxIter.

(** *** The loop as a state transformer

    Both loops are the iteration of one body on the triple
    [(x, y, iteration)]; the lemmas are proved on this form and carried
    to the two functions by [mandelbrot_spec] and [julia_spec]. *)
Record LoopState : Type := mkLoop { lx : R; ly : R; literation : Z }.

(** The loop condition [x*x+y*y <= 4 && iteration < maxIter]. *)
Definition loop_cond (maxIter : Z) (s : LoopState) : bool :=
  Rleb (lx s * lx s + ly s * ly s) 4 && (literation s <? maxIter)%Z.

(** The loop body. *)
Definition loop_body (cx cy : R) (s : LoopState) : LoopState :=
  let xTemp := lx s * lx s - ly s * ly s + cx in
  mkLoop xTemp (2 * lx s * ly s + cy) (literation s + 1)%Z.

Fixpoint escape_loop (fuel : nat) (cx cy : R) (maxIter : Z) (s : LoopState)
  : LoopState :=
  match fuel with
  | O => s
  | S fuel' =>
      if loop_cond maxIter s
      then escape_loop fuel' cx cy maxIter (loop_body cx cy s)
      else s
  end.

(** The code after the loop: the smoothed count on escape, [maxIter]
    otherwise. *)
Definition smooth (maxIter : Z) (s : LoopState) : R :=
  if (literation s <? maxIter)%Z then
    let logZn := ln (lx s * lx s + ly s * ly s) / 2 in
    float64 (literation s) + 1 - ln logZn / ln 2
  else float64 maxIter.

Definition triple (s : LoopState) : R * R * Z := (lx s, ly s, literation s).

(** ** Colour lookup *)

Record RGBA : Type := mkRGBA { R_ : Z; G_ : Z; B_ : Z; A_ : Z }.

Definition colorMapping : list RGBA :=
  [ mkRGBA 66 30 15 255;
    mkRGBA 25 7 26 255;
    mkRGBA 9 1 47 255;
    mkRGBA 4 4 73 255;
    mkRGBA 0 7 100 255;
    mkRGBA 12 44 138 255;
    mkRGBA 24 82 177 255;
    mkRGBA 57 125 209 255;
    mkRGBA 134 181 229 255;
    mkRGBA 211 236 248 255;
    mkRGBA 241 233 191 255;
    mkRGBA 248 201 95 255;
    mkRGBA 255 170 0 255;
    mkRGBA 204 128 0 255;
    mkRGBA 153 87 0 255;
    mkRGBA 106 52 3 255 ].

(** [color.RGBA{}], the zero value. *)
Definition reserved : RGBA := mkRGBA 0 0 0 0.

(** [colorMapping[i]]: Go panics when [i] is out of range, modelled by
    [None]. *)
Definition index (l : list RGBA) (i : Z) : option RGBA :=
  if (i <? 0)%Z then None else nth_error l (Z.to_nat i).

(** [getColor(iterations, maxIter)]; Go's [%] is the truncated
    remainder [Z.rem]. *)
Definition getColor (iterations maxIter : Z) : option RGBA :=
  if (iterations <? maxIter)%Z && (iterations >? 0)%Z then
    let i := Z.rem iterations (Z.of_nat (length colorMapping)) in
    index colorMapping i
  else Some reserved.

(** The colour of an escape value, as [Draw] computes it:
    [getColor(int(iterations), maxIter)]. *)
Definition map_color (escape_value : R) (maxIter : Z) : option RGBA :=
  getColor (int escape_value) maxIter.

(** ** Viewport state: the [Game] struct of the two-fractal program *)

Definition FractalMandelbrot : Z := 0.
Definition FractalJulia : Z := 1.

Record Game : Type := mkGame {
  minX : R; maxX : R; minY : R; maxY : R;
  centerX : R; centerY : R;
  juliaX : R; juliaY : R;
  zoom : R;
  zoomSpeed : R;
  fractalType : Z;
  lastUpdate : R  (* a [time.Time], in seconds *)
}.

Definition set_lastUpdate (t : R) (g : Game) : Game :=
  mkGame (minX g) (maxX g) (minY g) (maxY g) (centerX g) (centerY g)
         (juliaX g) (juliaY g) (zoom g) (zoomSpeed g) (fractalType g) t.

Definition set_zoomSpeed (v : R) (g : Game) : Game :=
  mkGame (minX g) (maxX g) (minY g) (maxY g) (centerX g) (centerY g)
         (juliaX g) (juliaY g) (zoom g) v (fractalType g) (lastUpdate g).

Definition set_zoom (v : R) (g : Game) : Game :=
  mkGame (minX g) (maxX g) (minY g) (maxY g) (centerX g) (centerY g)
         (juliaX g) (juliaY g) v (zoomSpeed g) (fractalType g) (lastUpdate g).

Definition set_fractalType (k : Z) (g : Game) : Game :=
  mkGame (minX g) (maxX g) (minY g) (maxY g) (centerX g) (centerY g)
         (juliaX g) (juliaY g) (zoom g) (zoomSpeed g) k (lastUpdate g).

Definition set_julia (jx jy : R) (g : Game) : Game :=
  mkGame (minX g) (maxX g) (minY g) (maxY g) (centerX g) (centerY g)
         jx jy (zoom g) (zoomSpeed g) (fractalType g) (lastUpdate g).

(** Not in the source, which never assigns the centre after [main]:
    used to state that a later change of centre leaves the Julia
    constant alone. *)
Definition set_center (x y : R) (g : Game) : Game :=
  mkGame (minX g) (maxX g) (minY g) (maxY g) x y
         (juliaX g) (juliaY g) (zoom g) (zoomSpeed g) (fractalType g)
         (lastUpdate g).

(** [func (g *Game) toggleFractal()]. *)
Definition toggleFractal (g : Game) : Game :=
  let g1 := set_fractalType (Z.rem (int_wrap (fractalType g + 1)) 2) g in
  if (fractalType g1 =? FractalJulia)%Z
  then set_julia (centerX g1) (centerY g1) g1
  else g1.

(** What one call of [Update] reads from its environment: the clock
    ([time.Now()], in seconds), the left mouse button and the cursor. *)
Record Input : Type := mkInput {
  now : R;
  mousePressed : bool;
  cursorX : Z;
  cursorY : Z
}.

(** The sidebar interaction of [Update]. *)
Definition sidebar (inp : Input) (g : Game) : Game :=
  if mousePressed inp then
    let x := cursorX inp in
    let y := cursorY inp in
    if (x <? 100)%Z then
      if (y >=? 70)%Z && (y <=? 270)%Z then
        set_zoomSpeed ((float64 (y - 70) / 200) * 0.5) g
      else if (y >=? 300)%Z && (y <=? 340)%Z then
        toggleFractal g
      else g
    else g
  else g.

(** [math.Pow], [math.Max] and [math.Min] on reals; the base of the
    power is [1 + zoomSpeed], positive for every speed the program
    sets.  Real powers never overflow and there is no NaN: the real
    reading of the zoom step is the code's only where the product
    [zoom * Pow ...] is not NaN, that is, from a zoom of at least 1, or
    while the power is finite.  [Module Binary64Zoom] has the step on
    binary64, where [0 * +Inf] is NaN and [math.Max] and [math.Min]
    pass NaN on. *)
Definition Pow (x y : R) : R := Rpower x y.

(** The last two statements of [Update]:
    [g.zoom *= math.Pow(1+g.zoomSpeed, elapsed)] and
    [g.zoom = math.Max(1, math.Min(g.zoom, 1e15))]. *)
Definition advance (elapsed : R) (g : Game) : Game :=
  let g1 := set_zoom (zoom g * Pow (1 + zoomSpeed g) elapsed) g in
  set_zoom (Rmax 1 (Rmin (zoom g1) 1e15)) g1.

(** [func (g *Game) Update() error]; it always returns [nil]. *)
Definition Update (inp : Input) (g : Game) : Game :=
  let elapsed := now inp - lastUpdate g in
  let g1 := set_lastUpdate (now inp) g in
  let g2 := sidebar inp g1 in
  advance elapsed g2.

(** The frames of a session: [Update] once per tick. *)
Fixpoint run (inps : list Input) (g : Game) : Game :=
  match inps with
  | [] => g
  | inp :: rest => run rest (Update inp g)
  end.

(** The body of the pixel loop of [Draw] for pixel [(x, y)] of a screen
    of [W] by [H] pixels: the plane point, the evaluator chosen by
    [fractalType] ([iterations] keeps its zero value when no case
    matches), and the colour.  The plane point is computed in exact
    arithmetic; on binary64 each of its operations rounds, so that the
    point of the far edge [x = W] can differ from [centre + size/2] in
    the last place. *)
Definition plane_point (g : Game) (W H x y : Z) : R * R :=
  let width := (maxX g - minX g) / zoom g in
  let height := (maxY g - minY g) / zoom g in
  let minX' := centerX g - width / 2 in
  let maxX' := centerX g + width / 2 in
  let minY' := centerY g - height / 2 in
  let maxY' := centerY g + height / 2 in
  (minX' + (maxX' - minX') * float64 x / float64 W,
   minY' + (maxY' - minY') * float64 y / float64 H).

Definition pixel_iterations (g : Game) (maxIter : Z) (c : R * R) : R :=
  if (fractalType g =? FractalMandelbrot)%Z then
    mandelbrot (fst c) (snd c) maxIter
  else if (fractalType g =? FractalJulia)%Z then
    julia (fst c) (snd c) (juliaX g) (juliaY g) maxIter
  else 0.

Definition pixel_color (g : Game) (W H x y : Z) : option RGBA :=
  let maxIter := 200%Z in
  let iterations := pixel_iterations g maxIter (plane_point g W H x y) in
  getColor (int iterations) maxIter.

(** The [Game] literal of [main]. *)
Definition main_game (t0 : R) : Game :=
  mkGame (-2.5) 1.0 (-1.5) 1.5
         0.42884 (-0.231345)
         0.0 0.0
         0.0
         0.01
         0
         t0.

(** ** The Mandelbrot-only program ([main.go])

    Its [mandelbrot], [colorMapping] and [getColor] are the ones above,
    line for line; the struct has no Julia fields, [Update] has no
    toggle branch and [Draw] uses [maxIter := 100]. *)
Module MainGo.

Record Game : Type := mkGame {
  minX : R; maxX : R; minY : R; maxY : R;
  centerX : R; centerY : R;
  zoom : R;
  zoomSpeed : R;
  lastUpdate : R
}.

Definition sidebar (inp : Input) (g : Game) : Game :=
  if mousePressed inp then
    let x := cursorX inp in
    let y := cursorY inp in
    if (x <? 100)%Z then
      if (y >=? 70)%Z && (y <=? 270)%Z then
        mkGame (minX g) (maxX g) (minY g) (maxY g) (centerX g) (centerY g)
               (zoom g) ((float64 (y - 70) / 200) * 0.5) (lastUpdate g)
      else g
    else g
  else g.

Definition advance (elapsed : R) (g : Game) : Game :=
  let z1 := zoom g * Pow (1 + zoomSpeed g) elapsed in
  mkGame (minX g) (maxX g) (minY g) (maxY g) (centerX g) (centerY g)
         (Rmax 1 (Rmin z1 1e15)) (zoomSpeed g) (lastUpdate g).

Definition Update (inp : Input) (g : Game) : Game :=
  let elapsed := now inp - lastUpdate g in
  let g1 := mkGame (minX g) (maxX g) (minY g) (maxY g) (centerX g)
                   (centerY g) (zoom g) (zoomSpeed g) (now inp) in
  advance elapsed (sidebar inp g1).

Fixpoint run (inps : list Input) (g : Game) : Game :=
  match inps with
  | [] => g
  | inp :: rest => run rest (Update inp g)
  end.

Definition pixel_color (g : Game) (W H x y : Z) : option RGBA :=
  let maxIter := 100%Z in
  let width := (maxX g - minX g) / zoom g in
  let height := (maxY g - minY g) / zoom g in
  let minX' := centerX g - width / 2 in
  let maxX' := centerX g + width / 2 in
  let minY' := centerY g - height / 2 in
  let maxY' := centerY g + height / 2 in
  let cx := minX' + (maxX' - minX') * float64 x / float64 W in
  let cy := minY' + (maxY' - minY') * float64 y / float64 H in
  let iterations := mandelbrot cx cy maxIter in
  getColor (int iterations) maxIter.

Definition main_game (t0 : R) : Game :=
  mkGame (-2.5) 1.0 (-1.5) 1.5
         (-0.7445398603559083806) 0.1217237738944248242
         0.0
         0.01
         t0.

End MainGo.

(** ** The two programs side by side

    [main.go] is its sibling with the Julia constant and the fractal
    kind forgotten (lemma [forget_Update]). *)

(** Forgetting the Julia constant and the fractal kind. *)
Definition forget (g : Game) : MainGo.Game :=
  MainGo.mkGame (minX g) (maxX g) (minY g) (maxY g) (centerX g) (centerY g)
                (zoom g) (zoomSpeed g) (lastUpdate g).

(** A state of [main.go], seen as a state of the sibling in its initial
    kind. *)
Definition embed (g : MainGo.Game) : Game :=
  mkGame (MainGo.minX g) (MainGo.maxX g) (MainGo.minY g) (MainGo.maxY g)
         (MainGo.centerX g) (MainGo.centerY g) 0 0
         (MainGo.zoom g) (MainGo.zoomSpeed g) 0 (MainGo.lastUpdate g).

(** The invariant of the viewport after an update: the zoom is clamped
    and the rate is not negative. *)
Definition zoom_ok (g : Game) : Prop :=
  1 <= zoom g <= 1e15 /\ 0 <= zoomSpeed g.

(** The kind is one of the two declared constants. *)
Definition kind_ok (g : Game) : Prop :=
  fractalType g = FractalMandelbrot \/ fractalType g = FractalJulia.

(** A session whose clock never runs backwards: the times [time.Now()]
    returns, starting from the last update [t]. *)
Fixpoint clock_monotone (t : R) (inps : list Input) : Prop :=
  match inps with
  | [] => True
  | inp :: rest => t <= now inp /\ clock_monotone (now inp) rest
  end.


(** ** The evaluators on IEEE-754 binary64

    The same two functions with [float64] read as the kernel's binary64
    numbers, so that overflow, infinities and NaN are visible; every
    operation rounds on its own.
    [math.Log] belongs to Go's library, not to the repository; it is a
    parameter [Log], of which only the documented special case
    [Log(+Inf) = +Inf] is ever assumed. *)
Module Binary64.

Local Open Scope float_scope.

(** [float64(n)]: the nearest binary64 number. *)
Definition float64 (n : Z) : float :=
  SF2Prim (binary_normalize prec emax n 0 false).

Fixpoint mandelbrot_loop (fuel : nat) (cx cy : float) (maxIter : Z)
         (x y : float) (iteration : Z) : float * float * Z :=
  match fuel with
  | O => (x, y, iteration)
  | S fuel' =>
      if (x * x + y * y <=? 4) && (iteration <? maxIter)%Z then
        let xTemp := x * x - y * y + cx in
        let y := 2 * x * y + cy in
        let x := xTemp in
        mandelbrot_loop fuel' cx cy maxIter x y (iteration + 1)%Z
      else (x, y, iteration)
  end.

Fixpoint julia_loop (fuel : nat) (cx cy : float) (maxIter : Z)
         (x y : float) (iteration : Z) : float * float * Z :=
  match fuel with
  | O => (x, y, iteration)
  | S fuel' =>
      if (x * x + y * y <=? 4) && (iteration <? maxIter)%Z then
        let xTemp := x * x - y * y + cx in
        let y := 2 * x * y + cy in
        let x := xTemp in
        julia_loop fuel' cx cy maxIter x y (iteration + 1)%Z
      else (x, y, iteration)
  end.

Section WithLog.

Variable Log : float -> float.

Definition mandelbrot (cx cy : float) (maxIter : Z) : float :=
  let '(x, y, iteration) :=
    mandelbrot_loop (Z.to_nat maxIter) cx cy maxIter 0 0 0 in
  if (iteration <? maxIter)%Z then
    let logZn := Log (x * x + y * y) / 2 in
    float64 iteration + 1 - Log logZn / Log 2
  else float64 maxIter.

Definition julia (x y cx cy : float) (maxIter : Z) : float :=
  let '(x, y, iteration) :=
    julia_loop (Z.to_nat maxIter) cx cy maxIter x y 0 in
  if (iteration <? maxIter)%Z then
    let logZn := Log (x * x + y * y) / 2 in
    float64 iteration + 1 - Log logZn / Log 2
  else float64 maxIter.

End WithLog.



End Binary64.

(** ** The rest of [Draw]: sidebar and text overlay *)

(** A call of [vector.DrawFilledRect] (or, for the sidebar's
    background, of [DrawImage] with a filled image): position, size and
    colour.  The pixels covered are [x <= px < x + w], [y <= py < y + h]. *)
Record FilledRect : Type := mkRect {
  rect_x : Z; rect_y : Z; rect_w : Z; rect_h : Z; rect_clr : RGBA
}.

Definition covers (r : FilledRect) (px py : Z) : Prop :=
  (rect_x r <= px < rect_x r + rect_w r)%Z /\
  (rect_y r <= py < rect_y r + rect_h r)%Z.

(** [currentZoomSpeedY] of [drawSidebar]:
    [zoomSpeedY + int((g.zoomSpeed/0.5)*float64(zoomSpeedHeight))]. *)
Definition currentZoomSpeedY (speed : R) : Z :=
  let zoomSpeedY := 70%Z in
  let zoomSpeedHeight := 200%Z in
  int_wrap (zoomSpeedY + int ((speed / 0.5) * float64 zoomSpeedHeight)).

(** The rectangles [drawSidebar] fills, in drawing order, on a screen
    [screenH] pixels high: background, slider track, slider handle and
    toggle button (the button's caption is text and is left out). *)
Definition drawSidebar (screenH : Z) (g : Game) : list FilledRect :=
  let sidebarWidth := 100%Z in
  let zoomSpeedX := 10%Z in
  let zoomSpeedY := 70%Z in
  let zoomSpeedHeight := 200%Z in
  let buttonWidth := 80%Z in
  let buttonHeight := 40%Z in
  let buttonX := 10%Z in
  let buttonY := 300%Z in
  [ mkRect 0 0 sidebarWidth screenH (mkRGBA 50 50 50 255);
    mkRect zoomSpeedX zoomSpeedY 10 zoomSpeedHeight (mkRGBA 200 200 200 255);
    mkRect zoomSpeedX (currentZoomSpeedY (zoomSpeed g) - 5) 10 10
           (mkRGBA 255 0 0 255);
    mkRect buttonX buttonY buttonWidth buttonHeight (mkRGBA 100 100 100 255) ].

(** The two regions [Update] tests the cursor against while the left
    button is down. *)
Definition in_slider (inp : Input) : Prop :=
  mousePressed inp = true /\ (cursorX inp < 100)%Z /\
  (70 <= cursorY inp <= 270)%Z.

Definition in_toggle (inp : Input) : Prop :=
  mousePressed inp = true /\ (cursorX inp < 100)%Z /\
  (300 <= cursorY inp <= 340)%Z.

(** The name [drawInfo] prints after ["Fractal: "]. *)
Definition fractalName (fractalType : Z) : string :=
  if (fractalType =? FractalMandelbrot)%Z then "Mandelbrot"%string
  else if (fractalType =? FractalJulia)%Z then "Julia"%string
  else "Unknown"%string.

(** ** The orbit of a point

    The sequence [z_0 = (x, y)], [z_(k+1) = z_k^2 + c] the two loops
    walk along, written without any test or counter. *)
Definition quadratic_step (cx cy : R) (z : R * R) : R * R :=
  (fst z * fst z - snd z * snd z + cx, 2 * fst z * snd z + cy).

Definition orbit (cx cy : R) (z0 : R * R) (k : nat) : R * R :=
  Nat.iter k (quadratic_step cx cy) z0.

Definition modulus2 (z : R * R) : R := fst z * fst z + snd z * snd z.

(** ** The sidebar on binary64

    The two float expressions of the slider, the one [Update] stores
    and the one [drawSidebar] reads back, on binary64 numbers. *)
Module Binary64UI.

Local Open Scope float_scope.

(** [int(v)]: truncation towards zero; [None] where Go leaves the
    result to the implementation (NaN, infinities, values that do not
    fit an [int]). *)
Definition int (v : float) : option Z :=
  match Prim2SF v with
  | S754_zero _ => Some 0%Z
  | S754_finite s m e =>
      let a := if (0 <=? e)%Z then (Z.pos m * 2 ^ e)%Z
               else (Z.pos m / 2 ^ (- e))%Z in
      let z := if s then (- a)%Z else a in
      if ((-9223372036854775808 <=? z) && (z <=? 9223372036854775807))%Z
      then Some z else None
  | _ => None
  end.

(** The value [Update] stores in [g.zoomSpeed] for a press at height
    [y]: [(float64(y-70) / 200) * 0.5]. *)
Definition slider_zoomSpeed (y : Z) : float :=
  (Binary64.float64 (y - 70) / 200) * 0.5.

(** [currentZoomSpeedY] of [drawSidebar]. *)
Definition currentZoomSpeedY (speed : float) : option Z :=
  let zoomSpeedY := 70%Z in
  let zoomSpeedHeight := 200%Z in
  match int ((speed / 0.5) * Binary64.float64 zoomSpeedHeight) with
  | Some k => Some (int_wrap (zoomSpeedY + k))
  | None => None
  end.

(** The slider heights [70, 71, ..., 270]. *)
Definition slider_heights : list Z :=
  List.map (fun k => (70 + Z.of_nat k)%Z) (seq 0 201).

(** The heights at which rounding makes the handle land one pixel above
    the click. *)
Definition off_by_one : list Z := [99; 127; 128; 183; 184; 185; 186]%Z.

(** The check made on one slider height [y]: the rate stored is between
    0 and 0.5, and the handle height read back is [y - 1] at the
    heights of [off_by_one] and [y] at all others. *)
Definition round_trip_ok (y : Z) : bool :=
  match currentZoomSpeedY (slider_zoomSpeed y) with
  | Some h =>
      if existsb (Z.eqb y) off_by_one then (h =? y - 1)%Z else (h =? y)%Z
  | None => false
  end
  && PrimFloat.leb 0%float (slider_zoomSpeed y)
  && PrimFloat.leb (slider_zoomSpeed y) 0.5%float.

End Binary64UI.

(** ** The zoom step, precisely

    The rate [Update] uses for its zoom step: the slider's value when
    the press is in the slider region, the stored rate otherwise. *)
Definition rate_after (inp : Input) (speed : R) : R :=
  if mousePressed inp && (cursorX inp <? 100)%Z
     && (cursorY inp >=? 70)%Z && (cursorY inp <=? 270)%Z
  then (float64 (cursorY inp - 70) / 200) * 0.5
  else speed.

(** The first update of a session started by [main] at time [t0] (rate
    0.01, zoom 0) has a finite power [(1 + rate)^elapsed]: a bound far
    below the largest binary64 number.  Only then is the product
    [0 * power] zero rather than NaN. *)
Definition first_power_in_range (t0 : R) (inps : list Input) : Prop :=
  match inps with
  | [] => False
  | inp :: _ => Rpower (1 + rate_after inp 0.01) (now inp - t0) <= 1e300
  end.

(** The zoom step on binary64.  [math.Max] and [math.Min] follow the
    special cases Go documents ([Max(x, +Inf) = +Inf],
    [Max(x, NaN) = NaN], [Max(+0, -0) = +0], [Max(-0, -0) = -0], and
    dually for [Min]); [math.Pow] is a parameter. *)
Module Binary64Zoom.

Local Open Scope float_scope.

Definition Max (x y : float) : float :=
  if (x =? infinity) || (y =? infinity) then infinity
  else if is_nan x || is_nan y then nan
  else if (x =? 0) && (x =? y) then (if get_sign x then y else x)
  else if y <? x then x else y.

Definition Min (x y : float) : float :=
  if (x =? neg_infinity) || (y =? neg_infinity) then neg_infinity
  else if is_nan x || is_nan y then nan
  else if (x =? 0) && (x =? y) then (if get_sign x then x else y)
  else if x <? y then x else y.

(** [math.Max(1, math.Min(zoom, 1e15))]. *)
Definition clamp (zoom : float) : float := Max 1 (Min zoom 1e15).

Section WithPow.

Variable Pow : float -> float -> float.

(** [g.zoom *= math.Pow(1+g.zoomSpeed, elapsed)] followed by
    [g.zoom = math.Max(1, math.Min(g.zoom, 1e15))]: the new zoom. *)
Definition advance (zoom zoomSpeed elapsed : float) : float :=
  let zoom := zoom * Pow (1 + zoomSpeed) elapsed in
  clamp zoom.

End WithPow.

End Binary64Zoom.

(** * Properties *)

(** Case analysis on every condition of a nest of [if]s. *)
Ltac case_ifs :=
  repeat match goal with
         | |- context [if ?b then _ else _] => destruct b
         end.

(** ** Facts about the comparisons, [ln] and the conversions *)

Lemma Rleb_true (a b : R) : Rleb a b = true <-> a <= b.
Proof.
  unfold Rleb. destruct (Rle_dec a b); split; intros; auto; discriminate.
Qed.

Lemma Rleb_false (a b : R) : Rleb a b = false <-> b < a.
Proof.
  unfold Rleb. destruct (Rle_dec a b); split; intros; auto; try discriminate; lra.
Qed.

Lemma ln2_pos : 0 < ln 2.
Proof. rewrite <- ln_1. apply ln_increasing; lra. Qed.

Lemma ln2_gt_half : 1 / 2 < ln 2.
Proof. pose proof ln_lt_2. lra. Qed.

Lemma ln2_lt_1 : ln 2 < 1.
Proof.
  rewrite <- (ln_exp 1). apply ln_increasing; [lra|].
  pose proof (exp_ineq1 1). lra.
Qed.

Lemma ln_4 : ln 4 = 2 * ln 2.
Proof. replace 4 with (2 * 2) by lra. rewrite ln_mult; lra. Qed.

Lemma ln_16 : ln 16 = 4 * ln 2.
Proof. replace 16 with (4 * 4) by lra. rewrite ln_mult, ln_4; lra. Qed.

Lemma ln_64 : ln 64 = 6 * ln 2.
Proof. replace 64 with (16 * 4) by lra. rewrite ln_mult, ln_16, ln_4; lra. Qed.

Lemma ln_le_mono (a b : R) : 0 < a -> a <= b -> ln a <= ln b.
Proof.
  intros Ha [Hlt | ->]; [left; apply ln_increasing; assumption | right; reflexivity].
Qed.

(** [ln] is positive above 1. *)
Lemma ln_pos (a : R) : 1 < a -> 0 < ln a.
Proof. intros Ha. rewrite <- ln_1. apply ln_increasing; lra. Qed.

(** ** The escape loop *)

(** The two source loops are the iteration of [loop_body]. *)
Lemma mandelbrot_loop_spec fuel cx cy maxIter x y iteration :
  mandelbrot_loop fuel cx cy maxIter x y iteration
  = triple (escape_loop fuel cx cy maxIter (mkLoop x y iteration)).
Proof.
  revert x y iteration. induction fuel as [| fuel IH]; intros x y iteration.
  - reflexivity.
  - cbn [mandelbrot_loop escape_loop]. unfold loop_cond. cbn [lx ly literation].
    destruct (Rleb (x * x + y * y) 4 && (iteration <? maxIter)%Z).
    + cbv zeta. rewrite IH. reflexivity.
    + reflexivity.
Qed.

Lemma julia_loop_spec fuel cx cy maxIter x y iteration :
  julia_loop fuel cx cy maxIter x y iteration
  = triple (escape_loop fuel cx cy maxIter (mkLoop x y iteration)).
Proof.
  revert x y iteration. induction fuel as [| fuel IH]; intros x y iteration.
  - reflexivity.
  - cbn [julia_loop escape_loop]. unfold loop_cond. cbn [lx ly literation].
    destruct (Rleb (x * x + y * y) 4 && (iteration <? maxIter)%Z).
    + cbv zeta. rewrite IH. reflexivity.
    + reflexivity.
Qed.

Lemma mandelbrot_spec cx cy maxIter :
  mandelbrot cx cy maxIter
  = smooth maxIter (escape_loop (Z.to_nat maxIter) cx cy maxIter (mkLoop 0 0 0)).
Proof. unfold mandelbrot. rewrite mandelbrot_loop_spec. reflexivity. Qed.

Lemma julia_spec x y cx cy maxIter :
  julia x y cx cy maxIter
  = smooth maxIter (escape_loop (Z.to_nat maxIter) cx cy maxIter (mkLoop x y 0)).
Proof. unfold julia. rewrite julia_loop_spec. reflexivity. Qed.

(** The iteration counter never decreases. *)
Lemma escape_loop_iteration_ge fuel cx cy maxIter s :
  (literation s <= literation (escape_loop fuel cx cy maxIter s))%Z.
Proof.
  revert s. induction fuel as [| fuel IH]; intros s; simpl; [lia|].
  destruct (loop_cond maxIter s); [|lia].
  specialize (IH (loop_body cx cy s)). simpl in IH. lia.
Qed.

(** It never passes [maxIter] when it starts at or below it. *)
Lemma escape_loop_iteration_le fuel cx cy maxIter s :
  (literation s <= maxIter)%Z ->
  (literation (escape_loop fuel cx cy maxIter s) <= maxIter)%Z.
Proof.
  revert s. induction fuel as [| fuel IH]; intros s Hs; simpl; [lia|].
  destruct (loop_cond maxIter s) eqn:Hc; [|lia].
  apply IH. simpl. unfold loop_cond in Hc.
  apply andb_true_iff in Hc as [_ Hc]. apply Z.ltb_lt in Hc. lia.
Qed.

(** Fuel: with at least [maxIter - iteration] rounds, the unrolled loop
    stops because its condition is false, as the [for] loop does. *)
Lemma escape_loop_exit fuel cx cy maxIter s :
  (maxIter - literation s <= Z.of_nat fuel)%Z ->
  loop_cond maxIter (escape_loop fuel cx cy maxIter s) = false.
Proof.
  revert s. induction fuel as [| fuel IH]; intros s Hs; simpl.
  - unfold loop_cond. replace (literation s <? maxIter)%Z with false.
    + apply andb_false_r.
    + symmetry. apply Z.ltb_ge. lia.
  - destruct (loop_cond maxIter s) eqn:Hc; [|exact Hc].
    apply IH. simpl. lia.
Qed.

(** When the loop stops before the budget is used up, the point has
    escaped: [x*x+y*y > 4].  The two logarithms of the smoothing
    formula are then taken of [x*x+y*y > 4] and of
    [ln (x*x+y*y) / 2 > ln 2 > 0]. *)
Lemma escape_loop_escaped fuel cx cy maxIter s :
  (maxIter - literation s <= Z.of_nat fuel)%Z ->
  let s' := escape_loop fuel cx cy maxIter s in
  (literation s' < maxIter)%Z ->
  4 < lx s' * lx s' + ly s' * ly s'.
Proof.
  intros Hf s' Hlt. pose proof (escape_loop_exit fuel cx cy maxIter s Hf) as He.
  fold s' in He. unfold loop_cond in He.
  apply andb_false_iff in He as [Hm | Hm].
  - apply Rleb_false. exact Hm.
  - apply Z.ltb_ge in Hm. lia.
Qed.

(** More fuel than needed changes nothing. *)
Lemma escape_loop_more_fuel fuel extra cx cy maxIter s :
  (maxIter - literation s <= Z.of_nat fuel)%Z ->
  escape_loop (fuel + extra) cx cy maxIter s = escape_loop fuel cx cy maxIter s.
Proof.
  revert s. induction fuel as [| fuel IH]; intros s Hs; simpl.
  - destruct extra; simpl; [reflexivity|].
    unfold loop_cond. replace (literation s <? maxIter)%Z with false.
    + rewrite andb_false_r. reflexivity.
    + symmetry. apply Z.ltb_ge. lia.
  - destruct (loop_cond maxIter s); [|reflexivity].
    apply IH. simpl. lia.
Qed.

(** So the evaluators do not depend on the fuel, once there is enough:
    the embedding computes what the [for] loop computes. *)
Lemma mandelbrot_loop_fuel (extra : nat) cx cy maxIter :
  mandelbrot_loop (Z.to_nat maxIter + extra) cx cy maxIter 0 0 0
  = mandelbrot_loop (Z.to_nat maxIter) cx cy maxIter 0 0 0.
Proof.
  rewrite !mandelbrot_loop_spec, escape_loop_more_fuel; [reflexivity|].
  simpl. lia.
Qed.

Lemma julia_loop_fuel (extra : nat) x y cx cy maxIter :
  julia_loop (Z.to_nat maxIter + extra) cx cy maxIter x y 0
  = julia_loop (Z.to_nat maxIter) cx cy maxIter x y 0.
Proof.
  rewrite !julia_loop_spec, escape_loop_more_fuel; [reflexivity|].
  simpl. lia.
Qed.

(** One round from a point of squared modulus at most 4 lands at squared
    modulus at most [32 + 2 |c|^2]. *)
Lemma loop_body_modulus cx cy s :
  lx s * lx s + ly s * ly s <= 4 ->
  let s' := loop_body cx cy s in
  lx s' * lx s' + ly s' * ly s' <= 32 + 2 * (cx * cx + cy * cy).
Proof.
  intros H. simpl. set (x := lx s) in *. set (y := ly s) in *.
  assert (Hsq : (x * x - y * y) * (x * x - y * y) + (2 * x * y) * (2 * x * y)
                = (x * x + y * y) * (x * x + y * y)) by ring.
  assert (0 <= x * x + y * y) by nra.
  assert ((x * x + y * y) * (x * x + y * y) <= 16) by nra.
  pose proof (Rle_0_sqr (x * x - y * y - cx)) as Ha.
  pose proof (Rle_0_sqr (2 * x * y - cy)) as Hb.
  unfold Rsqr in Ha, Hb. lra.
Qed.

(** Where the loop stops: at its start state, or after at least one
    round, at squared modulus at most [32 + 2 |c|^2]. *)
Lemma escape_loop_modulus fuel cx cy maxIter s :
  let s' := escape_loop fuel cx cy maxIter s in
  s' = s \/
  ((literation s < literation s')%Z /\
   lx s' * lx s' + ly s' * ly s' <= 32 + 2 * (cx * cx + cy * cy)).
Proof.
  revert s. induction fuel as [| fuel IH]; intros s; simpl; [left; reflexivity|].
  destruct (loop_cond maxIter s) eqn:Hc; [|left; reflexivity].
  right. unfold loop_cond in Hc. apply andb_true_iff in Hc as [Hm _].
  apply Rleb_true in Hm.
  destruct (IH (loop_body cx cy s)) as [-> | [Hlt Hb]].
  - split; [simpl; lia|]. apply loop_body_modulus. exact Hm.
  - split; [simpl in Hlt; lia | exact Hb].
Qed.

(** ** The smoothing term [ln (ln m / 2) / ln 2] past the escape radius *)

(** Past the threshold [m > 4], half the logarithm exceeds [ln 2]. *)
Lemma half_ln_gt_ln2 (m : R) : 4 < m -> ln 2 < ln m / 2.
Proof.
  intros Hm. assert (ln 4 < ln m) by (apply ln_increasing; lra).
  rewrite ln_4 in *. lra.
Qed.

(** So the smoothing term is above [-1]: the smoothed count stays below
    [iteration + 2]. *)
Lemma smoothing_term_gt_minus_1 (m : R) : 4 < m -> -1 < ln (ln m / 2) / ln 2.
Proof.
  intros Hm. pose proof (half_ln_gt_ln2 m Hm) as H.
  pose proof ln2_pos as Hp. pose proof ln2_gt_half as Hh.
  assert (Hl : ln (1 / 2) < ln (ln m / 2)) by (apply ln_increasing; lra).
  replace (1 / 2) with (/ 2) in Hl by lra.
  rewrite ln_Rinv in Hl by lra.
  apply Rmult_lt_reg_r with (ln 2); [exact Hp|].
  unfold Rdiv. rewrite Rmult_assoc, Rinv_l by lra. lra.
Qed.

(** The smoothing term is below [k] as soon as [ln m / 2 < 2^k]; here
    for the two cases the evaluators need. *)
Lemma smoothing_term_lt_1 (m : R) :
  4 < m -> m <= 16 -> ln (ln m / 2) / ln 2 < 1.
Proof.
  intros Hlo Hhi. pose proof (half_ln_gt_ln2 m Hlo) as H.
  pose proof ln2_pos as Hp. pose proof ln2_lt_1 as H1.
  assert (Hm : ln m <= ln 16) by (apply ln_le_mono; lra).
  rewrite ln_16 in Hm.
  assert (Hl : ln (ln m / 2) < ln 2) by (apply ln_increasing; lra).
  apply Rmult_lt_reg_r with (ln 2); [exact Hp|].
  unfold Rdiv. rewrite Rmult_assoc, Rinv_l by lra. lra.
Qed.

Lemma smoothing_term_lt_2 (m : R) :
  4 < m -> m <= 64 -> ln (ln m / 2) / ln 2 < 2.
Proof.
  intros Hlo Hhi. pose proof (half_ln_gt_ln2 m Hlo) as H.
  pose proof ln2_pos as Hp. pose proof ln2_lt_1 as H1.
  assert (Hm : ln m <= ln 64) by (apply ln_le_mono; lra).
  rewrite ln_64 in Hm.
  assert (Hl : ln (ln m / 2) < ln 4) by (apply ln_increasing; lra).
  rewrite ln_4 in Hl.
  apply Rmult_lt_reg_r with (ln 2); [exact Hp|].
  unfold Rdiv. rewrite Rmult_assoc, Rinv_l by lra. lra.
Qed.

(** [mandelbrot] is [julia] started at the origin: the two Go functions
    differ only in where [x] and [y] come from. *)
Lemma mandelbrot_unfold (cx cy : R) (maxIter : Z) :
  mandelbrot cx cy maxIter = julia 0 0 cx cy maxIter.
Proof. rewrite mandelbrot_spec, julia_spec. reflexivity. Qed.

(** The value [julia] returns, for start points and constants of squared
    modulus at most 16. *)
Lemma julia_range (x y cx cy : R) (maxIter : Z) :
  (1 <= maxIter)%Z ->
  x * x + y * y <= 16 ->
  cx * cx + cy * cy <= 16 ->
  0 <= julia x y cx cy maxIter < float64 maxIter + 1.
Proof.
  intros Hmax Hz Hc. rewrite julia_spec. unfold smooth, float64.
  set (s0 := mkLoop x y 0).
  set (s' := escape_loop (Z.to_nat maxIter) cx cy maxIter s0).
  pose proof (escape_loop_iteration_ge (Z.to_nat maxIter) cx cy maxIter s0) as Hge.
  pose proof (escape_loop_iteration_le (Z.to_nat maxIter) cx cy maxIter s0) as Hle.
  pose proof (escape_loop_escaped (Z.to_nat maxIter) cx cy maxIter s0) as Hexit.
  pose proof (escape_loop_modulus (Z.to_nat maxIter) cx cy maxIter s0) as Hmod.
  cbv zeta in Hmod, Hexit. fold s' in Hge, Hle, Hexit, Hmod.
  simpl in Hge, Hle, Hexit.
  specialize (Hle ltac:(lia)). specialize (Hexit ltac:(lia)).
  destruct (literation s' <? maxIter)%Z eqn:Hlt.
  - apply Z.ltb_lt in Hlt. pose proof (Hexit Hlt) as Hm.
    set (m := lx s' * lx s' + ly s' * ly s') in *.
    pose proof (smoothing_term_gt_minus_1 m Hm) as Hup.
    assert (Hn : 0 <= IZR (literation s') <= IZR maxIter - 1).
    { split; [apply IZR_le; lia|].
      rewrite <- minus_IZR. apply IZR_le. lia. }
    split; [|lra].
    destruct Hmod as [Heq | [Hstep Hb]].
    + assert (m <= 16) by (subst m; rewrite Heq; simpl; exact Hz).
      pose proof (smoothing_term_lt_1 m Hm ltac:(assumption)). lra.
    + assert (m <= 64) by (subst m; lra).
      pose proof (smoothing_term_lt_2 m Hm ltac:(assumption)).
      assert (1 <= IZR (literation s')) by (apply IZR_le; simpl in Hstep; lia).
      lra.
  - assert (1 <= IZR maxIter) by (apply IZR_le; lia). lra.
Qed.

(** ** Closed forms of [mandelbrot] *)

(** With [maxIter = 1] the single round is always taken (the test sees
    [z = 0]) and uses up the budget: the result is [maxIter], whatever
    the point. *)
Lemma mandelbrot_budget_1 (cx cy : R) : mandelbrot cx cy 1 = float64 1.
Proof.
  rewrite mandelbrot_spec. simpl. unfold loop_cond. simpl.
  rewrite (proj2 (Rleb_true (0 * 0 + 0 * 0) 4)) by lra.
  reflexivity.
Qed.

(** A point outside the disc of radius 2 is seen to escape after the
    first round, when the budget allows a second test. *)
Lemma mandelbrot_escape_round_1 (cx cy : R) (maxIter : Z) :
  (2 <= maxIter)%Z ->
  4 < cx * cx + cy * cy ->
  mandelbrot cx cy maxIter = 2 - ln (ln (cx * cx + cy * cy) / 2) / ln 2.
Proof.
  intros Hmax Hc. rewrite mandelbrot_spec.
  destruct (Z.to_nat maxIter) as [| [| fuel]] eqn:Hf; try lia.
  assert (H0 : (0 <? maxIter)%Z = true) by (apply Z.ltb_lt; lia).
  assert (H1 : (1 <? maxIter)%Z = true) by (apply Z.ltb_lt; lia).
  assert (Hm : (0 * 0 - 0 * 0 + cx) * (0 * 0 - 0 * 0 + cx)
               + (2 * 0 * 0 + cy) * (2 * 0 * 0 + cy) = cx * cx + cy * cy) by ring.
  cbn [escape_loop]. unfold loop_cond at 1. cbn [lx ly literation].
  rewrite (proj2 (Rleb_true (0 * 0 + 0 * 0) 4)) by lra.
  rewrite H0. cbn [andb]. unfold loop_cond at 1, loop_body.
  cbn [lx ly literation]. rewrite Hm.
  rewrite (proj2 (Rleb_false (cx * cx + cy * cy) 4)) by lra.
  cbn [andb]. unfold smooth. cbn [lx ly literation]. rewrite Hm.
  change (0 + 1)%Z with 1%Z. rewrite H1. unfold float64. lra.
Qed.

(** Bounds on [ln] at the points used below. *)
Lemma ln_three_halves : ln (3 / 2) < 1 / 2.
Proof.
  rewrite <- (ln_exp (1 / 2)). apply ln_increasing; [lra|].
  pose proof (exp_ineq1 (1 / 2)). lra.
Qed.

Lemma ln_16_15 : 1 / 16 < ln (16 / 15).
Proof.
  rewrite <- (ln_exp (1 / 16)) at 1. apply ln_increasing; [apply exp_pos|].
  pose proof (exp_ineq1 (- (1 / 16)) ltac:(lra)) as H.
  rewrite exp_Ropp in H. pose proof (exp_pos (1 / 16)) as Hp.
  apply Rmult_lt_reg_r with (/ exp (1 / 16)); [apply Rinv_0_lt_compat; exact Hp|].
  rewrite Rinv_r by lra. lra.
Qed.

Lemma ln8_gt_2 : 2 < ln 8.
Proof.
  pose proof ln_16_15 as H.
  assert (Hp : ln ((16 / 15) ^ 32) = 32 * ln (16 / 15)).
  { rewrite ln_pow by lra. simpl INR. f_equal. lra. }
  assert (Hlt : ln ((16 / 15) ^ 32) < ln 8).
  { apply ln_increasing; [apply pow_lt; lra|].
    apply Rmult_lt_reg_r with (15 ^ 32); [apply pow_lt; lra|].
    rewrite <- Rpow_mult_distr. replace (16 / 15 * 15) with 16 by lra.
    rewrite !pow_IZR, <- mult_IZR. apply IZR_lt. vm_compute. reflexivity. }
  lra.
Qed.

(** At the origin the loop never leaves [z = 0] and uses the whole
    budget. *)
Lemma escape_loop_origin fuel maxIter s :
  lx s = 0 -> ly s = 0 ->
  (Z.of_nat fuel = maxIter - literation s)%Z ->
  literation (escape_loop fuel 0 0 maxIter s) = maxIter.
Proof.
  revert s. induction fuel as [| fuel IH]; intros s Hx Hy Hf.
  - simpl. lia.
  - cbn [escape_loop]. unfold loop_cond. rewrite Hx, Hy.
    rewrite (proj2 (Rleb_true (0 * 0 + 0 * 0) 4)) by lra.
    replace (literation s <? maxIter)%Z with true
      by (symmetry; apply Z.ltb_lt; lia).
    cbn [andb]. apply IH; unfold loop_body; cbn [lx ly literation].
    + rewrite Hx, Hy. ring.
    + rewrite Hx, Hy. ring.
    + lia.
Qed.

(** ** The evaluators on binary64 *)

Module Binary64Facts.

Import Binary64.
Local Open Scope float_scope.




(** At the origin the binary64 loop stays at [z = 0] too. *)
Lemma b64_mandelbrot_loop_origin (fuel : nat) (N k : Z) :
  (Z.of_nat fuel = N - k)%Z ->
  mandelbrot_loop fuel 0 0 N 0 0 k = (0, 0, N).
Proof.
  revert k. induction fuel as [| fuel IH]; intros k Hf.
  - simpl. f_equal. lia.
  - cbn [mandelbrot_loop].
    replace (k <? N)%Z with true by (symmetry; apply Z.ltb_lt; lia).
    change (0 * 0 + 0 * 0 <=? 4) with true. cbn [andb]. cbv zeta.
    change (0 * 0 - 0 * 0 + 0) with 0. change (2 * 0 * 0 + 0) with 0.
    apply IH. lia.
Qed.

Lemma b64_mandelbrot_origin (Log : float -> float) (N : Z) :
  mandelbrot Log 0 0 N = float64 N.
Proof.
  unfold mandelbrot. destruct (Z.le_gt_cases 0 N) as [Hpos | Hneg].
  - rewrite b64_mandelbrot_loop_origin by lia.
    rewrite Z.ltb_irrefl. reflexivity.
  - replace (Z.to_nat N) with O by lia. cbn [mandelbrot_loop].
    replace (0 <? N)%Z with false by (symmetry; apply Z.ltb_ge; lia).
    reflexivity.
Qed.

(** The two binary64 loops are the same function. *)
Lemma b64_loops_agree fuel cx cy maxIter x y k :
  julia_loop fuel cx cy maxIter x y k = mandelbrot_loop fuel cx cy maxIter x y k.
Proof.
  revert x y k. induction fuel as [| fuel IH]; intros x y k; [reflexivity|].
  cbn [julia_loop mandelbrot_loop].
  destruct ((x * x + y * y <=? 4) && (k <? maxIter)%Z); [|reflexivity].
  cbv zeta. apply IH.
Qed.

Lemma b64_julia_origin (Log : float -> float) cx cy maxIter :
  julia Log 0 0 cx cy maxIter = mandelbrot Log cx cy maxIter.
Proof. unfold julia, mandelbrot. rewrite b64_loops_agree. reflexivity. Qed.

(** With budget 1, [(2, 2)] is reported as interior on binary64 as
    well; [Log] is not even called. *)
Lemma b64_mandelbrot_2_2_budget_1 (Log : float -> float) :
  mandelbrot Log 2 2 1 = 1.
Proof. reflexivity. Qed.

End Binary64Facts.

(** ** The evaluators: range, escape and interior *)

(** C1 (as amended).  For [maxIter >= 1], a start point and a constant of
    squared modulus at most 16 (the viewport's points are), [julia] and
    [mandelbrot] return a value in [0, maxIter + 1): the smoothed count
    of an escape at the last round can exceed [maxIter], by less
    than 1. *)
Theorem escape_value_range (x y cx cy : R) (maxIter : Z) :
  (1 <= maxIter)%Z ->
  x * x + y * y <= 16 ->
  cx * cx + cy * cy <= 16 ->
  0 <= julia x y cx cy maxIter < float64 maxIter + 1 /\
  0 <= mandelbrot cx cy maxIter < float64 maxIter + 1.
Proof.
  intros Hmax Hz Hc. split.
  - apply julia_range; assumption.
  - rewrite mandelbrot_unfold. apply julia_range; [assumption | lra | assumption].
Qed.

Lemma escape_value_range_witness :
  0 <= julia 1 1 2 2 3 < float64 3 + 1 /\
  0 <= mandelbrot 2 2 3 < float64 3 + 1.
Proof. apply (escape_value_range 1 1 2 2 3); [lia | lra | lra]. Defined.

(** C1 (as stated) fails on both sides: with budget 2, the point
    [(-2.125, 0)], a point of the base viewport, gets a value above 2,
    and the point [(256, 0)] a value below 0. *)
Lemma escape_value_outside_0_maxIter :
  ~ (0 <= mandelbrot (-2.125) 0 2 <= float64 2) /\
  ~ (0 <= mandelbrot 256 0 2 <= float64 2).
Proof.
  pose proof ln2_pos as Hp. split.
  - rewrite mandelbrot_escape_round_1 by (try lia; lra).
    replace (-2.125 * -2.125 + 0 * 0) with 4.515625 by lra.
    assert (H1 : 0 < ln 4.515625) by (apply ln_pos; lra).
    assert (H2 : ln 4.515625 < 2).
    { assert (H : ln 4.515625 < ln ((3 / 2) ^ 4)) by (apply ln_increasing; lra).
      rewrite ln_pow in H by lra. simpl INR in H.
      pose proof ln_three_halves. lra. }
    assert (H3 : ln (ln 4.515625 / 2) < 0).
    { rewrite <- ln_1. apply ln_increasing; lra. }
    assert (H4 : ln (ln 4.515625 / 2) / ln 2 < 0).
    { apply Rmult_lt_reg_r with (ln 2); [exact Hp|].
      unfold Rdiv. rewrite Rmult_assoc, Rinv_l by lra. lra. }
    unfold float64. lra.
  - rewrite mandelbrot_escape_round_1 by (try lia; lra).
    replace (256 * 256 + 0 * 0) with (16 ^ 4) by lra.
    rewrite ln_pow by lra. simpl INR. rewrite ln_16.
    pose proof ln2_gt_half as Hh.
    assert (H3 : ln 4 < ln ((1 + 1 + 1 + 1) * (4 * ln 2) / 2))
      by (apply ln_increasing; lra).
    rewrite ln_4 in H3.
    assert (H4 : 2 < ln ((1 + 1 + 1 + 1) * (4 * ln 2) / 2) / ln 2).
    { apply Rmult_lt_reg_r with (ln 2); [exact Hp|].
      unfold Rdiv at 1. rewrite Rmult_assoc, Rinv_l by lra. lra. }
    lra.
Qed.

(** C2 (as amended).  For every budget [N >= 2], [mandelbrot] at
    [(2, 2)] reports the escape seen after the first round: the value
    is [2 - log2 (ln 8 / 2)], below 2 and so below [N]. *)
Theorem mandelbrot_2_2_escapes (N : Z) :
  (2 <= N)%Z ->
  mandelbrot 2 2 N = 2 - ln (ln 8 / 2) / ln 2 /\
  mandelbrot 2 2 N < float64 N.
Proof.
  intros HN. rewrite mandelbrot_escape_round_1 by (try lia; lra).
  replace (2 * 2 + 2 * 2) with 8 by lra. split; [reflexivity|].
  pose proof ln2_pos as Hp. pose proof ln8_gt_2 as H8.
  assert (H3 : 0 < ln (ln 8 / 2)) by (apply ln_pos; lra).
  assert (H4 : 0 < ln (ln 8 / 2) / ln 2).
  { apply Rdiv_lt_0_compat; assumption. }
  assert (2 <= float64 N) by (apply IZR_le; lia).
  lra.
Qed.

Lemma mandelbrot_2_2_escapes_witness :
  mandelbrot 2 2 2 = 2 - ln (ln 8 / 2) / ln 2 /\
  mandelbrot 2 2 2 < float64 2.
Proof. apply (mandelbrot_2_2_escapes 2). lia. Defined.

(** C2 (as stated) fails at [N = 1]: the only round is spent before
    [|z|^2 = 8] is tested, and [(2, 2)] is reported as interior; on
    the reals and on binary64. *)
Lemma mandelbrot_2_2_budget_1 :
  ~ (mandelbrot 2 2 1 < float64 1) /\
  (forall Log : float -> float,
      Binary64.mandelbrot Log 2 2 1 = Binary64.float64 1).
Proof.
  split.
  - rewrite mandelbrot_budget_1. lra.
  - intros Log. apply Binary64Facts.b64_mandelbrot_2_2_budget_1.
Qed.

(** C7.  At the origin [mandelbrot] returns exactly [N], for every
    budget [N] (negative ones included: the loop is then skipped); on
    the reals and on binary64. *)
Theorem mandelbrot_origin (N : Z) :
  mandelbrot 0 0 N = float64 N /\
  forall Log : float -> float,
    Binary64.mandelbrot Log 0 0 N = Binary64.float64 N.
Proof.
  split; [|intros Log; apply Binary64Facts.b64_mandelbrot_origin].
  rewrite mandelbrot_spec. unfold smooth.
  destruct (Z.le_gt_cases 0 N) as [Hpos | Hneg].
  - rewrite escape_loop_origin; [| reflexivity | reflexivity | simpl; lia].
    rewrite Z.ltb_irrefl. reflexivity.
  - replace (Z.to_nat N) with O by lia. simpl.
    replace (0 <? N)%Z with false by (symmetry; apply Z.ltb_ge; lia).
    reflexivity.
Qed.

(** C10.  [julia] started at the origin with constant [(cx, cy)] is
    [mandelbrot] at [(cx, cy)]; on the reals and on binary64. *)
Theorem julia_origin_is_mandelbrot :
  (forall (cx cy : R) (maxIter : Z),
      julia 0 0 cx cy maxIter = mandelbrot cx cy maxIter) /\
  (forall (Log : float -> float) (cx cy : float) (maxIter : Z),
      Binary64.julia Log 0 0 cx cy maxIter = Binary64.mandelbrot Log cx cy maxIter).
Proof.
  split.
  - intros cx cy maxIter. unfold julia, mandelbrot.
    rewrite julia_loop_spec, mandelbrot_loop_spec. reflexivity.
  - intros Log cx cy maxIter. apply Binary64Facts.b64_julia_origin.
Qed.

(** ** Colour lookup *)

(** [int] discards the fraction. *)
Lemma int_nonneg (v : R) : 0 <= v -> int v = Zfloor v.
Proof. intros H. unfold int. destruct (Rle_dec 0 v); [reflexivity | contradiction]. Qed.

Lemma int_neg (v : R) : v < 0 -> int v = Zceil v.
Proof. intros H. unfold int. destruct (Rle_dec 0 v); [lra | reflexivity]. Qed.

(** The truncated value is positive exactly from 1 on. *)
Lemma int_pos_iff (v : R) : (0 < int v)%Z <-> 1 <= v.
Proof.
  split.
  - intros H. destruct (Rle_dec 0 v) as [Hv | Hv].
    + rewrite int_nonneg in H by assumption.
      pose proof (Zfloor_bound v) as [Hb _].
      assert (1 <= IZR (Zfloor v)) by (apply IZR_le; lia). lra.
    + rewrite int_neg in H by lra.
      pose proof (Zceil_bound v) as [Hb _].
      assert (1 <= IZR (Zceil v)) by (apply IZR_le; lia). lra.
  - intros H. rewrite int_nonneg by lra.
    assert (1 <= Zfloor v)%Z by (apply Zfloor_lub; exact H). lia.
Qed.

(** From 1 on, it is below an integer bound exactly when the value is. *)
Lemma int_lt_iff (v : R) (n : Z) : 1 <= v -> (int v < n)%Z <-> v < IZR n.
Proof.
  intros Hv. rewrite int_nonneg by lra.
  pose proof (Zfloor_bound v) as [Hlo Hhi]. split.
  - intros H. assert (IZR (Zfloor v) + 1 <= IZR n).
    { rewrite <- plus_IZR. apply IZR_le. lia. }
    lra.
  - intros H. apply lt_IZR. lra.
Qed.

(** [getColor] on the integers: the reserved colour outside
    [0 < iterations < maxIter], the palette entry at
    [iterations mod 16] inside; that entry exists and is opaque. *)
Lemma getColor_outside (iterations maxIter : Z) :
  (iterations <= 0 \/ maxIter <= iterations)%Z ->
  getColor iterations maxIter = Some reserved.
Proof.
  intros H. unfold getColor.
  destruct (iterations <? maxIter)%Z eqn:H1; [|reflexivity].
  destruct (iterations >? 0)%Z eqn:H2; [|reflexivity].
  apply Z.ltb_lt in H1. apply Z.gtb_lt in H2. lia.
Qed.

Lemma palette_entry (n : nat) :
  (n < 16)%nat -> exists c, nth_error colorMapping n = Some c /\ A_ c = 255%Z.
Proof.
  intros H.
  do 16 (destruct n as [| n]; [simpl; eexists; split; reflexivity|]).
  lia.
Qed.

Lemma getColor_inside (iterations maxIter : Z) :
  (0 < iterations < maxIter)%Z ->
  getColor iterations maxIter
  = nth_error colorMapping (Z.to_nat (iterations mod 16)) /\
  exists c, getColor iterations maxIter = Some c /\ A_ c = 255%Z.
Proof.
  intros [H0 H1]. unfold getColor.
  replace (iterations <? maxIter)%Z with true by (symmetry; apply Z.ltb_lt; lia).
  replace (iterations >? 0)%Z with true by (symmetry; apply Z.gtb_lt; lia).
  cbn [andb]. change (Z.of_nat (length colorMapping)) with 16%Z. cbv zeta.
  rewrite Z.rem_mod_nonneg by lia.
  pose proof (Z.mod_pos_bound iterations 16 ltac:(lia)) as Hb.
  unfold index. replace (iterations mod 16 <? 0)%Z with false
    by (symmetry; apply Z.ltb_ge; lia).
  split; [reflexivity|]. apply palette_entry. lia.
Qed.


(** C3 (as amended).  For an escape value that fits an [int],
    [map_color] returns the reserved colour exactly when the value is
    below 1 or at least [maxIter] (the test is made on the truncated
    value), and the palette entry at [floor v mod 16] for every value
    in [1, maxIter).  The three sample points of the specification
    behave as it says. *)
Theorem map_color_cases :
  (forall (v : R) (maxIter : Z),
      int_representable v ->
      (map_color v maxIter = Some reserved <-> v < 1 \/ float64 maxIter <= v) /\
      (1 <= v < float64 maxIter ->
       map_color v maxIter
       = nth_error colorMapping (Z.to_nat (Zfloor v mod 16)))) /\
  map_color 0 100 = Some reserved /\
  map_color 100 100 = Some reserved /\
  map_color 5.9 100 = nth_error colorMapping 5.
Proof.
  assert (Hin : forall v maxIter, 1 <= v < float64 maxIter ->
                  (0 < int v < maxIter)%Z).
  { intros v maxIter [H1 H2]. split.
    - apply int_pos_iff. exact H1.
    - apply int_lt_iff; assumption. }
  repeat split.
  - intros Hres. destruct (Rlt_dec v 1) as [Hlt | Hge]; [left; exact Hlt|].
    destruct (Rle_dec (float64 maxIter) v) as [Hle | Hgt]; [right; exact Hle|].
    exfalso. unfold map_color in Hres.
    destruct (getColor_inside (int v) maxIter) as [_ [c [Hc Ha]]].
    { apply Hin. lra. }
    rewrite Hc in Hres. injection Hres as ->. discriminate Ha.
  - intros Hout. unfold map_color. apply getColor_outside.
    destruct Hout as [Hlt | Hle].
    + left. destruct (Z_lt_le_dec 0 (int v)) as [Hp | Hp]; [|exact Hp].
      apply int_pos_iff in Hp. lra.
    + destruct (Rlt_dec v 1) as [Hlt | Hge].
      * left. destruct (Z_lt_le_dec 0 (int v)) as [Hp | Hp]; [|exact Hp].
        apply int_pos_iff in Hp. lra.
      * right. destruct (Z_lt_le_dec (int v) maxIter) as [Hp | Hp]; [|exact Hp].
        apply int_lt_iff in Hp; unfold float64 in Hle; lra.
  - intros Hv. unfold map_color.
    destruct (getColor_inside (int v) maxIter (Hin v maxIter Hv)) as [-> _].
    rewrite int_nonneg by lra. reflexivity.
  - unfold map_color. apply getColor_outside. left.
    rewrite int_nonneg by lra. rewrite (ZfloorZ 0). lia.
  - unfold map_color. apply getColor_outside. right.
    rewrite int_nonneg by lra. rewrite (ZfloorZ 100). lia.
  - unfold map_color. rewrite int_nonneg by lra.
    rewrite (Zfloor_eq 5 5.9) by lra. reflexivity.
Qed.

Lemma map_color_cases_witness :
  int_representable 17.25 /\
  1 <= 17.25 < float64 100 /\
  map_color 17.25 100 = nth_error colorMapping (Z.to_nat (Zfloor 17.25 mod 16)).
Proof.
  assert (Hr : int_representable 17.25) by (unfold int_representable; lra).
  assert (Hv : 1 <= 17.25 < float64 100) by (unfold float64; lra).
  split; [exact Hr|]. split; [exact Hv|].
  exact (proj2 (proj1 map_color_cases 17.25 100%Z Hr) Hv).
Defined.

(** C3 (as stated) fails between 0 and 1: the value 0.5 truncates to 0
    and gets the reserved colour, not the palette's first entry. *)
Lemma map_color_half :
  0 < 0.5 < float64 100 /\
  map_color 0.5 100 = Some reserved /\
  map_color 0.5 100 <> nth_error colorMapping (Z.to_nat (Zfloor 0.5 mod 16)).
Proof.
  assert (H : map_color 0.5 100 = Some reserved).
  { unfold map_color. rewrite int_nonneg by lra.
    rewrite (Zfloor_eq 0 0.5) by lra. reflexivity. }
  split; [unfold float64; lra|]. split; [exact H|].
  rewrite H, (Zfloor_eq 0 0.5) by lra. discriminate.
Qed.




(** ** The two programs: [main.go] is the projection of its sibling *)

Lemma forget_embed (g : MainGo.Game) : forget (embed g) = g.
Proof. destruct g. reflexivity. Qed.

Lemma forget_toggleFractal (g : Game) : forget (toggleFractal g) = forget g.
Proof.
  unfold toggleFractal.
  destruct (fractalType _ =? FractalJulia)%Z; reflexivity.
Qed.

Lemma forget_sidebar (inp : Input) (g : Game) :
  forget (sidebar inp g) = MainGo.sidebar inp (forget g).
Proof.
  unfold sidebar, MainGo.sidebar.
  destruct (mousePressed inp); [|reflexivity].
  destruct (cursorX inp <? 100)%Z; [|reflexivity].
  destruct ((cursorY inp >=? 70)%Z && (cursorY inp <=? 270)%Z); [reflexivity|].
  destruct ((cursorY inp >=? 300)%Z && (cursorY inp <=? 340)%Z); [|reflexivity].
  apply forget_toggleFractal.
Qed.

Lemma forget_advance (e : R) (g : Game) :
  forget (advance e g) = MainGo.advance e (forget g).
Proof. reflexivity. Qed.

(** [Update] of [main.go] is [Update] of the sibling, up to [forget]. *)
Lemma forget_Update (inp : Input) (g : Game) :
  forget (Update inp g) = MainGo.Update inp (forget g).
Proof.
  unfold Update, MainGo.Update. rewrite forget_advance, forget_sidebar.
  reflexivity.
Qed.

Lemma forget_run (inps : list Input) (g : Game) :
  forget (run inps g) = MainGo.run inps (forget g).
Proof.
  revert g. induction inps as [| inp rest IH]; intros g; simpl; [reflexivity|].
  rewrite IH, forget_Update. reflexivity.
Qed.

(** ** The slider *)

Lemma sidebar_slider (inp : Input) (g : Game) :
  mousePressed inp = true ->
  (cursorX inp < 100)%Z ->
  (70 <= cursorY inp <= 270)%Z ->
  sidebar inp g = set_zoomSpeed ((float64 (cursorY inp - 70) / 200) * 0.5) g.
Proof.
  intros Hp Hx Hy. unfold sidebar. rewrite Hp.
  replace (cursorX inp <? 100)%Z with true by (symmetry; apply Z.ltb_lt; lia).
  replace (cursorY inp >=? 70)%Z with true by (symmetry; apply Z.geb_le; lia).
  replace (cursorY inp <=? 270)%Z with true by (symmetry; apply Z.leb_le; lia).
  reflexivity.
Qed.

Lemma zoomSpeed_advance (e : R) (g : Game) :
  zoomSpeed (advance e g) = zoomSpeed g.
Proof. reflexivity. Qed.

(** C9.  A press on the slider, at height [y] between [y0 = 70] and
    [y1 = 270], sets the rate to [(y - y0) / (y1 - y0) * 0.5]: 0 at
    [y0], 0.25 at the midpoint 170 and 0.5 at [y1]; in both programs. *)
Theorem slider_rate (inp : Input) (g : Game) (g' : MainGo.Game) :
  mousePressed inp = true ->
  (cursorX inp < 100)%Z ->
  (70 <= cursorY inp <= 270)%Z ->
  let rate := (IZR (cursorY inp) - 70) / (270 - 70) * 0.5 in
  zoomSpeed (Update inp g) = rate /\
  MainGo.zoomSpeed (MainGo.Update inp g') = rate /\
  (cursorY inp = 70%Z -> rate = 0) /\
  (cursorY inp = 170%Z -> rate = 0.25) /\
  (cursorY inp = 270%Z -> rate = 0.5).
Proof.
  intros Hp Hx Hy rate.
  assert (Hg : forall g0, zoomSpeed (Update inp g0) = rate).
  { intros g0. unfold Update. rewrite zoomSpeed_advance.
    rewrite sidebar_slider by assumption. cbn [zoomSpeed set_zoomSpeed].
    unfold float64, rate. rewrite minus_IZR. lra. }
  split; [apply Hg|]. split.
  - rewrite <- (forget_embed g'), <- forget_Update.
    change (MainGo.zoomSpeed (forget (Update inp (embed g'))))
      with (zoomSpeed (Update inp (embed g'))).
    apply Hg.
  - unfold rate. repeat split; intros ->; lra.
Qed.

Lemma slider_rate_witness :
  let inp := mkInput 1 true 10 170 in
  zoomSpeed (Update inp (main_game 0)) = 0.25 /\
  MainGo.zoomSpeed (MainGo.Update inp (MainGo.main_game 0)) = 0.25.
Proof.
  intros inp.
  destruct (slider_rate inp (main_game 0) (MainGo.main_game 0)
              eq_refl ltac:(simpl; lia) ltac:(simpl; lia))
    as [H1 [H2 [_ [H170 _]]]].
  rewrite H1, H2. split; apply H170; reflexivity.
Defined.

(** ** The zoom step on binary64 *)

Module Binary64ZoomFacts.

Import Binary64Zoom.
Local Open Scope float_scope.

Lemma SFcompare_finite_refl s m e :
  SFcompare (S754_finite s m e) (S754_finite s m e) = Some Eq.
Proof.
  simpl. rewrite Z.compare_refl, Pos.compare_cont_refl. destruct s; reflexivity.
Qed.

Lemma SFcompare_antisym (a b : spec_float) (c : comparison) :
  SFcompare a b = Some c -> SFcompare b a = Some (CompOpp c).
Proof.
  destruct a as [sa | sa | | sa ma ea], b as [sb | sb | | sb mb eb];
    simpl; try discriminate;
    try (destruct sa; try destruct sb; intros H; injection H as <-; reflexivity);
    try (destruct sb; intros H; injection H as <-; reflexivity).
  intros H. injection H as <-. f_equal.
  rewrite (Z.compare_antisym ea eb).
  destruct sa, sb; try reflexivity;
    destruct (ea ?= eb)%Z; simpl; try reflexivity;
    rewrite (Pos.compare_cont_antisym ma mb Eq); reflexivity.
Qed.

Lemma float_of_spec (q : float) (x : spec_float) :
  Prim2SF q = x -> q = SF2Prim x.
Proof. intros <-. symmetry. apply SF2Prim_Prim2SF. Qed.

Lemma is_nan_spec (q : float) :
  is_nan q = match Prim2SF q with S754_nan => true | _ => false end.
Proof.
  unfold is_nan. rewrite FloatAxioms.eqb_spec. unfold SFeqb.
  destruct (Prim2SF q) as [s | s | | s m e].
  - reflexivity.
  - destruct s; reflexivity.
  - reflexivity.
  - rewrite SFcompare_finite_refl. reflexivity.
Qed.

(** On a finite number the clamp is the two comparisons. *)
Lemma b64_clamp_finite (q : float) s m e :
  Prim2SF q = S754_finite s m e ->
  clamp q = if q <? 1e15 then (if q <? 1 then 1 else q) else 1e15.
Proof.
  intros E. unfold clamp, Min.
  assert (Hn : is_nan q = false) by (rewrite is_nan_spec, E; reflexivity).
  assert (H1 : (q =? neg_infinity) = false) by (rewrite FloatAxioms.eqb_spec, E; reflexivity).
  assert (H2 : (q =? 0) = false).
  { rewrite FloatAxioms.eqb_spec, E. unfold SFeqb. simpl. destruct s; reflexivity. }
  assert (H3 : (q =? infinity) = false).
  { rewrite FloatAxioms.eqb_spec, E. unfold SFeqb. simpl. destruct s; reflexivity. }
  rewrite H1, Hn, H2.
  change (1e15 =? neg_infinity) with false. change (is_nan 1e15) with false.
  cbn [orb andb].
  destruct (q <? 1e15) eqn:Hlt.
  - unfold Max. rewrite H3, Hn.
    change (1 =? infinity) with false. change (is_nan 1) with false.
    change (1 =? 0) with false. cbn [orb andb]. reflexivity.
  - reflexivity.
Qed.

Lemma SFltb_false_leb (a b : spec_float) :
  a <> S754_nan -> b <> S754_nan ->
  SFltb a b = false -> SFleb b a = true.
Proof.
  intros Ha Hb. unfold SFltb, SFleb.
  destruct (SFcompare a b) as [c |] eqn:E.
  - rewrite (SFcompare_antisym a b c E). destruct c; [reflexivity | discriminate | reflexivity].
  - exfalso. destruct a, b; simpl in E; try discriminate; congruence.
Qed.

Lemma SFltb_leb (a b : spec_float) : SFltb a b = true -> SFleb a b = true.
Proof.
  unfold SFltb, SFleb. destruct (SFcompare a b) as [[ | | ] |]; congruence.
Qed.

Lemma b64_clamp_range (q : float) :
  is_nan q = false ->
  (1 <=? clamp q) = true /\ (clamp q <=? 1e15) = true.
Proof.
  intros Hn. rewrite is_nan_spec in Hn.
  destruct (Prim2SF q) as [s | s | | s m e] eqn:E.
  - rewrite (float_of_spec q _ E). destruct s; vm_compute; split; reflexivity.
  - rewrite (float_of_spec q _ E). destruct s; vm_compute; split; reflexivity.
  - discriminate Hn.
  - rewrite (b64_clamp_finite q s m e E).
    destruct (q <? 1e15) eqn:H15; [|vm_compute; split; reflexivity].
    destruct (q <? 1) eqn:H1; [vm_compute; split; reflexivity|].
    split.
    + rewrite leb_spec. rewrite ltb_spec in H1.
      apply SFltb_false_leb; [rewrite E; discriminate | discriminate | exact H1].
    + rewrite leb_spec. rewrite ltb_spec in H15. apply SFltb_leb. exact H15.
Qed.

Lemma b64_clamp_nan (q : float) : is_nan q = true -> is_nan (clamp q) = true.
Proof.
  intros Hn. rewrite is_nan_spec in Hn.
  destruct (Prim2SF q) as [s | s | | s m e] eqn:E; try discriminate Hn.
  rewrite (float_of_spec q _ E). vm_compute. reflexivity.
Qed.

Lemma mul_zero_finite (p : float) :
  is_finite p = true -> 0 * p = 0 \/ 0 * p = -0.
Proof.
  intros Hf.
  destruct (Prim2SF p) as [s | s | | s m e] eqn:E.
  - rewrite (float_of_spec _ _ (mul_spec 0 p)), E. destruct s; vm_compute; auto.
  - rewrite (float_of_spec p _ E) in Hf. destruct s; vm_compute in Hf; discriminate Hf.
  - rewrite (float_of_spec p _ E) in Hf. vm_compute in Hf. discriminate Hf.
  - rewrite (float_of_spec _ _ (mul_spec 0 p)), E. destruct s; vm_compute; auto.
Qed.

(** Rounding a positive mantissa never yields NaN. *)
Lemma shr_1_nonneg mrs : (0 <= shr_m mrs)%Z -> (0 <= shr_m (shr_1 mrs))%Z.
Proof.
  destruct mrs as [m r s]. simpl. intros H.
  destruct m as [| p | p]; [simpl; lia | | lia].
  destruct p; simpl; lia.
Qed.

Lemma iter_pos_nonneg (n : positive) mrs :
  (0 <= shr_m mrs)%Z -> (0 <= shr_m (iter_pos shr_1 n mrs))%Z.
Proof.
  revert mrs. induction n as [n IH | n IH |]; intros mrs H; simpl.
  - apply IH, IH, shr_1_nonneg, H.
  - apply IH, IH, H.
  - apply shr_1_nonneg, H.
Qed.

Lemma shr_nonneg mrs e n :
  (0 <= shr_m mrs)%Z -> (0 <= shr_m (fst (shr mrs e n)))%Z.
Proof.
  intros H. unfold shr. destruct n; simpl; try exact H.
  apply iter_pos_nonneg, H.
Qed.

Lemma shr_fexp_nonneg m e l :
  (0 <= m)%Z -> (0 <= shr_m (fst (shr_fexp prec emax m e l)))%Z.
Proof.
  intros H. unfold shr_fexp. apply shr_nonneg.
  destruct l as [| [ | | ]]; simpl; exact H.
Qed.

Lemma round_nearest_even_nonneg m l :
  (0 <= m)%Z -> (0 <= round_nearest_even m l)%Z.
Proof.
  intros H. unfold round_nearest_even.
  destruct l as [| [ | | ]]; try destruct (Z.even m); lia.
Qed.

Lemma binary_round_aux_not_nan s m e :
  binary_round_aux prec emax s (Z.pos m) e loc_Exact <> S754_nan.
Proof.
  unfold binary_round_aux.
  pose proof (shr_fexp_nonneg (Z.pos m) e loc_Exact ltac:(lia)) as H1.
  destruct (shr_fexp prec emax (Z.pos m) e loc_Exact) as [mrs' e'].
  simpl in H1.
  pose proof (shr_fexp_nonneg
                (round_nearest_even (shr_m mrs') (loc_of_shr_record mrs'))
                e' loc_Exact
                (round_nearest_even_nonneg _ _ H1)) as H2.
  destruct (shr_fexp prec emax _ e' loc_Exact) as [mrs'' e''].
  simpl in H2.
  destruct (shr_m mrs'') as [| p | p]; [discriminate | | lia].
  destruct (e'' <=? emax - prec)%Z; discriminate.
Qed.

Lemma leb_1_cases (p : float) :
  (1 <=? p) = true ->
  Prim2SF p = S754_infinity false \/ exists m e, Prim2SF p = S754_finite false m e.
Proof.
  rewrite leb_spec. change (Prim2SF 1) with (S754_finite false 4503599627370496 (-52)).
  destruct (Prim2SF p) as [s | s | | s m e]; unfold SFleb; simpl; try discriminate.
  - destruct s; [discriminate | auto].
  - destruct s; [discriminate |]. intros _. right. eauto.
Qed.

Lemma mul_not_nan (z p : float) :
  (1 <=? z) = true -> (z <=? 1e15) = true -> (1 <=? p) = true ->
  is_nan (z * p) = false.
Proof.
  intros Hz1 Hz2 Hp.
  rewrite is_nan_spec, mul_spec.
  destruct (leb_1_cases z Hz1) as [Ez | [mz [ez Ez]]].
  - exfalso. rewrite leb_spec, Ez in Hz2. vm_compute in Hz2. discriminate Hz2.
  - rewrite Ez.
    destruct (leb_1_cases p Hp) as [Ep | [mp [ep Ep]]]; rewrite Ep.
    + reflexivity.
    + unfold SF64mul, SFmul.
      pose proof (binary_round_aux_not_nan (xorb false false) (mz * mp) (ez + ep)) as Hr.
      destruct (binary_round_aux prec emax (xorb false false) (Z.pos (mz * mp)) (ez + ep) loc_Exact);
        [reflexivity | reflexivity | contradiction | reflexivity].
Qed.

(** The clamp on every number that is not NaN: 1 below 1, the number
    itself from 1 up to 1e15, and 1e15 from there on. *)
Lemma b64_clamp_cases (q : float) :
  is_nan q = false ->
  clamp q = if q <? 1e15 then (if q <? 1 then 1 else q) else 1e15.
Proof.
  intros Hn. rewrite is_nan_spec in Hn.
  destruct (Prim2SF q) as [s | s | | s m e] eqn:E.
  - rewrite (float_of_spec q _ E). destruct s; vm_compute; reflexivity.
  - rewrite (float_of_spec q _ E). destruct s; vm_compute; reflexivity.
  - discriminate Hn.
  - apply (b64_clamp_finite q s m e E).
Qed.

(** From a zoom in [1, 1e15] and a power of at least 1 (infinite or
    not), the step lands in [1, 1e15]. *)
Lemma b64_advance_range (Pow : float -> float -> float) (z speed elapsed : float) :
  (1 <=? z) = true -> (z <=? 1e15) = true ->
  (1 <=? Pow (1 + speed) elapsed) = true ->
  (1 <=? advance Pow z speed elapsed) = true /\
  (advance Pow z speed elapsed <=? 1e15) = true.
Proof.
  intros Hz1 Hz2 Hp. unfold advance. cbv zeta.
  apply b64_clamp_range. apply mul_not_nan; assumption.
Qed.

(** From [main]'s zoom 0 the step gives 1 when the power is finite, and
    NaN when it is infinite. *)
Lemma b64_advance_zero_finite (Pow : float -> float -> float) (speed elapsed : float) :
  is_finite (Pow (1 + speed) elapsed) = true ->
  advance Pow 0 speed elapsed = 1.
Proof.
  intros Hf. unfold advance. cbv zeta.
  destruct (mul_zero_finite _ Hf) as [-> | ->]; vm_compute; reflexivity.
Qed.

Lemma b64_advance_zero_infinite (Pow : float -> float -> float) (speed elapsed : float) :
  Pow (1 + speed) elapsed = infinity ->
  is_nan (advance Pow 0 speed elapsed) = true.
Proof.
  intros Hi. unfold advance. cbv zeta. rewrite Hi. vm_compute. reflexivity.
Qed.

(** A NaN zoom stays NaN. *)
Lemma b64_advance_nan (Pow : float -> float -> float) (z speed elapsed : float) :
  is_nan z = true -> is_nan (advance Pow z speed elapsed) = true.
Proof.
  intros Hn. unfold advance. cbv zeta. apply b64_clamp_nan.
  rewrite is_nan_spec in *. rewrite mul_spec.
  destruct (Prim2SF z); try discriminate Hn. reflexivity.
Qed.

End Binary64ZoomFacts.

(** ** Zoom *)

Lemma Pow_ge_1 (r e : R) : 0 <= r -> 0 <= e -> 1 <= Pow (1 + r) e.
Proof.
  intros Hr He. unfold Pow, Rpower.
  assert (0 <= ln (1 + r)) by (rewrite <- ln_1; apply ln_le_mono; lra).
  assert (0 <= e * ln (1 + r)) by (apply Rmult_le_pos; assumption).
  pose proof (exp_ineq1_le (e * ln (1 + r))). lra.
Qed.

Lemma clamp_range (z : R) : 1 <= Rmax 1 (Rmin z 1e15) <= 1e15.
Proof.
  split; [apply Rmax_l|].
  apply Rmax_lub; [lra | apply Rmin_r].
Qed.

Lemma clamp_ge (z z' : R) : z <= 1e15 -> z <= z' -> z <= Rmax 1 (Rmin z' 1e15).
Proof.
  intros H1 H2. apply Rle_trans with (Rmin z' 1e15); [|apply Rmax_r].
  apply Rmin_glb; assumption.
Qed.

Lemma sidebar_zoom (inp : Input) (g : Game) : zoom (sidebar inp g) = zoom g.
Proof.
  unfold sidebar, toggleFractal. case_ifs; reflexivity.
Qed.

Lemma sidebar_lastUpdate (inp : Input) (g : Game) :
  lastUpdate (sidebar inp g) = lastUpdate g.
Proof.
  unfold sidebar, toggleFractal. case_ifs; reflexivity.
Qed.

Lemma sidebar_zoomSpeed_nonneg (inp : Input) (g : Game) :
  0 <= zoomSpeed g -> 0 <= zoomSpeed (sidebar inp g).
Proof.
  intros H. unfold sidebar.
  destruct (mousePressed inp); [|exact H].
  destruct (cursorX inp <? 100)%Z; [|exact H].
  destruct ((cursorY inp >=? 70)%Z && (cursorY inp <=? 270)%Z) eqn:Hy.
  - apply andb_true_iff in Hy as [Hy _]. apply Z.geb_le in Hy.
    cbn [zoomSpeed set_zoomSpeed]. unfold float64.
    assert (0 <= IZR (cursorY inp - 70)) by (apply IZR_le; lia). lra.
  - destruct ((cursorY inp >=? 300)%Z && (cursorY inp <=? 340)%Z); [|exact H].
    unfold toggleFractal.
    destruct (fractalType _ =? FractalJulia)%Z; exact H.
Qed.

Lemma Update_zoom (inp : Input) (g : Game) :
  zoom (Update inp g)
  = Rmax 1 (Rmin (zoom g * Rpower (1 + zoomSpeed (Update inp g))
                                  (now inp - lastUpdate g)) 1e15).
Proof.
  unfold Update. rewrite zoomSpeed_advance. unfold advance.
  cbn [zoom set_zoom]. rewrite sidebar_zoom. reflexivity.
Qed.

Lemma Update_lastUpdate (inp : Input) (g : Game) :
  lastUpdate (Update inp g) = now inp.
Proof.
  unfold Update, advance. cbn [lastUpdate set_zoom].
  rewrite sidebar_lastUpdate. reflexivity.
Qed.

Lemma Update_zoom_range (inp : Input) (g : Game) :
  1 <= zoom (Update inp g) <= 1e15.
Proof. rewrite Update_zoom. apply clamp_range. Qed.

Lemma Update_zoom_ok (inp : Input) (g : Game) :
  0 <= zoomSpeed g -> zoom_ok (Update inp g).
Proof.
  intros H. split; [apply Update_zoom_range|].
  unfold Update. rewrite zoomSpeed_advance.
  apply sidebar_zoomSpeed_nonneg. exact H.
Qed.

(** One update does not decrease a clamped zoom, when the rate is not
    negative and the clock has not gone back. *)
Lemma Update_zoom_mono (inp : Input) (g : Game) :
  zoom_ok g -> lastUpdate g <= now inp -> zoom g <= zoom (Update inp g).
Proof.
  intros [[Hlo Hhi] Hs] Ht. rewrite Update_zoom.
  apply clamp_ge; [exact Hhi|].
  assert (Hp : 1 <= Rpower (1 + zoomSpeed (Update inp g)) (now inp - lastUpdate g)).
  { apply Pow_ge_1; [|lra].
    unfold Update. rewrite zoomSpeed_advance.
    apply sidebar_zoomSpeed_nonneg. exact Hs. }
  nra.
Qed.

Lemma run_app (inps1 inps2 : list Input) (g : Game) :
  run (inps1 ++ inps2) g = run inps2 (run inps1 g).
Proof.
  revert g. induction inps1 as [| inp rest IH]; intros g; simpl; [reflexivity|].
  apply IH.
Qed.

Lemma clock_monotone_app (inps1 inps2 : list Input) (g : Game) :
  clock_monotone (lastUpdate g) (inps1 ++ inps2) ->
  clock_monotone (lastUpdate g) inps1 /\
  clock_monotone (lastUpdate (run inps1 g)) inps2.
Proof.
  revert g. induction inps1 as [| inp rest IH]; intros g H; simpl in *.
  - split; [exact I | exact H].
  - destruct H as [Ht H]. rewrite <- (Update_lastUpdate inp g) in H.
    destruct (IH _ H) as [H1 H2]. rewrite Update_lastUpdate in H1.
    repeat split; assumption.
Qed.

(** Along a session the zoom never decreases and the invariant holds. *)
Lemma run_zoom_mono (inps : list Input) (g : Game) :
  zoom_ok g ->
  clock_monotone (lastUpdate g) inps ->
  zoom g <= zoom (run inps g) /\ zoom_ok (run inps g).
Proof.
  revert g. induction inps as [| inp rest IH]; intros g Hok Hc; simpl.
  - split; [lra | exact Hok].
  - destruct Hc as [Ht Hc].
    pose proof (Update_zoom_mono inp g Hok Ht) as Hm.
    destruct (IH (Update inp g)) as [H1 H2].
    + apply Update_zoom_ok. apply Hok.
    + rewrite Update_lastUpdate. exact Hc.
    + split; [lra | exact H2].
Qed.

Lemma MainGo_zoom_run (inps : list Input) (g' : MainGo.Game) :
  MainGo.zoom (MainGo.run inps g') = zoom (run inps (embed g')).
Proof.
  rewrite <- (forget_embed g') at 1. rewrite <- forget_run. reflexivity.
Qed.

(** The rate after an update, read off the input. *)
Lemma Update_zoomSpeed_rate (inp : Input) (g : Game) :
  zoomSpeed (Update inp g) = rate_after inp (zoomSpeed g).
Proof.
  unfold Update. rewrite zoomSpeed_advance. unfold sidebar, rate_after.
  destruct (mousePressed inp); [|reflexivity].
  destruct (cursorX inp <? 100)%Z; [|reflexivity].
  cbn [andb].
  destruct ((cursorY inp >=? 70)%Z && (cursorY inp <=? 270)%Z); [reflexivity|].
  destruct ((cursorY inp >=? 300)%Z && (cursorY inp <=? 340)%Z); [|reflexivity].
  unfold toggleFractal. destruct (fractalType _ =? FractalJulia)%Z; reflexivity.
Qed.

(** One update, from a clamped zoom. *)
Lemma Update_step (inp : Input) (g : Game) :
  1 <= zoom g <= 1e15 ->
  0 <= zoomSpeed g ->
  lastUpdate g <= now inp ->
  let r := rate_after inp (zoomSpeed g) in
  zoomSpeed (Update inp g) = r /\
  zoom (Update inp g)
  = Rmax 1 (Rmin (zoom g * Rpower (1 + r) (now inp - lastUpdate g)) 1e15) /\
  zoom g <= zoom (Update inp g) /\
  1 <= zoom (Update inp g) <= 1e15.
Proof.
  intros Hz Hs Ht r. split; [apply Update_zoomSpeed_rate|]. split.
  - rewrite Update_zoom, Update_zoomSpeed_rate. reflexivity.
  - split; [|apply Update_zoom_range].
    apply Update_zoom_mono; [split; assumption | exact Ht].
Qed.

(** C5.  From a zoom in [1, 1e15], with a rate that is not negative and
    a clock that has not gone back (a positive rate and a positive
    elapsed time in particular), [Update] sets the rate to the slider's
    value or keeps it, multiplies the zoom by [(1 + rate)^elapsed] and
    clamps the product to [1, 1e15]: the zoom does not decrease and lies
    in [1, 1e15] after the update, and so along a whole session.  In
    both programs.  On binary64 the step keeps a zoom of [1, 1e15] in
    [1, 1e15] for every power of at least 1, infinite or not: it is the
    clamp of the product, and the clamp of a number that is not NaN is
    1 below 1, the number itself up to 1e15 and 1e15 above. *)
Theorem zoom_advance_clamped_monotone :
  (forall (inp : Input) (g : Game),
      1 <= zoom g <= 1e15 ->
      0 <= zoomSpeed g ->
      lastUpdate g <= now inp ->
      let r := rate_after inp (zoomSpeed g) in
      zoomSpeed (Update inp g) = r /\
      zoom (Update inp g)
      = Rmax 1 (Rmin (zoom g * Rpower (1 + r) (now inp - lastUpdate g)) 1e15) /\
      zoom g <= zoom (Update inp g) /\
      1 <= zoom (Update inp g) <= 1e15) /\
  (forall (inps1 inps2 : list Input) (g : Game),
      1 <= zoom g <= 1e15 ->
      0 <= zoomSpeed g ->
      clock_monotone (lastUpdate g) (inps1 ++ inps2) ->
      zoom g <= zoom (run inps1 g) /\
      zoom (run inps1 g) <= zoom (run (inps1 ++ inps2) g) /\
      1 <= zoom (run (inps1 ++ inps2) g) <= 1e15) /\
  (forall (inp : Input) (g' : MainGo.Game),
      1 <= MainGo.zoom g' <= 1e15 ->
      0 <= MainGo.zoomSpeed g' ->
      MainGo.lastUpdate g' <= now inp ->
      let r := rate_after inp (MainGo.zoomSpeed g') in
      MainGo.zoomSpeed (MainGo.Update inp g') = r /\
      MainGo.zoom (MainGo.Update inp g')
      = Rmax 1 (Rmin (MainGo.zoom g'
                      * Rpower (1 + r) (now inp - MainGo.lastUpdate g')) 1e15) /\
      MainGo.zoom g' <= MainGo.zoom (MainGo.Update inp g') /\
      1 <= MainGo.zoom (MainGo.Update inp g') <= 1e15) /\
  (forall (inps1 inps2 : list Input) (g' : MainGo.Game),
      1 <= MainGo.zoom g' <= 1e15 ->
      0 <= MainGo.zoomSpeed g' ->
      clock_monotone (MainGo.lastUpdate g') (inps1 ++ inps2) ->
      MainGo.zoom g' <= MainGo.zoom (MainGo.run inps1 g') /\
      MainGo.zoom (MainGo.run inps1 g')
      <= MainGo.zoom (MainGo.run (inps1 ++ inps2) g') /\
      1 <= MainGo.zoom (MainGo.run (inps1 ++ inps2) g') <= 1e15) /\
  (forall (Pow : float -> float -> float) (z speed elapsed : float),
      PrimFloat.leb 1 z = true ->
      PrimFloat.leb z 1e15 = true ->
      PrimFloat.leb 1 (Pow (1 + speed)%float elapsed) = true ->
      PrimFloat.leb 1 (Binary64Zoom.advance Pow z speed elapsed) = true /\
      PrimFloat.leb (Binary64Zoom.advance Pow z speed elapsed) 1e15 = true) /\
  (forall q : float,
      is_nan q = false ->
      PrimFloat.leb 1 (Binary64Zoom.clamp q) = true /\
      PrimFloat.leb (Binary64Zoom.clamp q) 1e15 = true /\
      Binary64Zoom.clamp q
      = if PrimFloat.ltb q 1e15
        then (if PrimFloat.ltb q 1 then 1%float else q)
        else 1e15%float) /\
  (forall (Pow : float -> float -> float) (z speed elapsed : float),
      Binary64Zoom.advance Pow z speed elapsed
      = Binary64Zoom.clamp (z * Pow (1 + speed) elapsed)%float).
Proof.
  assert (Hrun : forall inps1 inps2 g,
             1 <= zoom g <= 1e15 ->
             0 <= zoomSpeed g ->
             clock_monotone (lastUpdate g) (inps1 ++ inps2) ->
             zoom g <= zoom (run inps1 g) /\
             zoom (run inps1 g) <= zoom (run (inps1 ++ inps2) g) /\
             1 <= zoom (run (inps1 ++ inps2) g) <= 1e15).
  { intros inps1 inps2 g Hz Hs Hc.
    destruct (clock_monotone_app inps1 inps2 g Hc) as [Hc1 Hc2].
    destruct (run_zoom_mono inps1 g (conj Hz Hs) Hc1) as [Hm1 Hok1].
    destruct (run_zoom_mono inps2 (run inps1 g) Hok1 Hc2) as [Hm2 Hok2].
    rewrite run_app. repeat split; try assumption; apply Hok2. }
  split; [exact Update_step|]. split; [exact Hrun|]. split; [|split].
  - intros inp g' Hz Hs Ht.
    assert (E : MainGo.Update inp g' = forget (Update inp (embed g')))
      by (rewrite forget_Update, forget_embed; reflexivity).
    rewrite E. exact (Update_step inp (embed g') Hz Hs Ht).
  - intros inps1 inps2 g' Hz Hs Hc. rewrite !MainGo_zoom_run.
    apply (Hrun inps1 inps2 (embed g')); assumption.
  - split; [exact Binary64ZoomFacts.b64_advance_range|]. split.
    + intros q Hn.
      destruct (Binary64ZoomFacts.b64_clamp_range q Hn) as [H1 H2].
      split; [exact H1|]. split; [exact H2|].
      apply Binary64ZoomFacts.b64_clamp_cases. exact Hn.
    + intros Pow z speed elapsed. reflexivity.
Qed.

Lemma zoom_advance_clamped_monotone_witness :
  let g := mkGame (-2.5) 1 (-1.5) 1.5 0 0 0 0 2 0.01 0 0 in
  let inp := mkInput 1 true 10 270 in
  let inps1 := [mkInput 1 false 0 0] in
  let inps2 := [mkInput 2 true 10 270] in
  (zoomSpeed (Update inp g) = rate_after inp 0.01 /\
   zoom g <= zoom (Update inp g) /\ 1 <= zoom (Update inp g) <= 1e15) /\
  (zoom g <= zoom (run inps1 g) /\
   zoom (run inps1 g) <= zoom (run (inps1 ++ inps2) g) /\
   1 <= zoom (run (inps1 ++ inps2) g) <= 1e15) /\
  (PrimFloat.leb 1 (Binary64Zoom.advance (fun b _ => b) 2 0.5 1) = true /\
   PrimFloat.leb (Binary64Zoom.advance (fun b _ => b) 2 0.5 1) 1e15 = true).
Proof.
  intros g inp inps1 inps2. split; [|split].
  - destruct (proj1 zoom_advance_clamped_monotone inp g) as [Hr [_ [Hm Hz]]];
      try (simpl; lra).
    split; [exact Hr|]. split; [exact Hm | exact Hz].
  - apply (proj1 (proj2 zoom_advance_clamped_monotone) inps1 inps2 g);
      simpl; lra.
  - apply (proj1 (proj2 (proj2 (proj2 (proj2 zoom_advance_clamped_monotone))))
             (fun b _ => b) 2%float 0.5%float 1%float); reflexivity.
Defined.

(** ** Start-up *)

(** C6 (as amended).  [main] creates the viewport with the fixed base
    bounds, the initial centre, a rate of 0.01 and a zoom of 0; the
    first [Update] brings the zoom to exactly 1 provided its power
    [(1 + rate)^elapsed] is finite (here: at most 1e300).  In both
    programs.  On binary64: from zoom 0 the step gives exactly 1 for
    every finite power, and NaN when the power is [+Inf]; a NaN zoom
    stays NaN. *)
Theorem main_game_initial (t0 : R) :
  (minX (main_game t0) = -2.5 /\ maxX (main_game t0) = 1 /\
   minY (main_game t0) = -1.5 /\ maxY (main_game t0) = 1.5 /\
   centerX (main_game t0) = 0.42884 /\ centerY (main_game t0) = -0.231345 /\
   zoom (main_game t0) = 0 /\
   zoomSpeed (main_game t0) = 0.01 /\ 0 < zoomSpeed (main_game t0) /\
   forall inp,
     Rpower (1 + rate_after inp 0.01) (now inp - t0) <= 1e300 ->
     zoom (Update inp (main_game t0)) = 1) /\
  (MainGo.minX (MainGo.main_game t0) = -2.5 /\
   MainGo.maxX (MainGo.main_game t0) = 1 /\
   MainGo.minY (MainGo.main_game t0) = -1.5 /\
   MainGo.maxY (MainGo.main_game t0) = 1.5 /\
   MainGo.centerX (MainGo.main_game t0) = -0.7445398603559083806 /\
   MainGo.centerY (MainGo.main_game t0) = 0.1217237738944248242 /\
   MainGo.zoom (MainGo.main_game t0) = 0 /\
   MainGo.zoomSpeed (MainGo.main_game t0) = 0.01 /\
   0 < MainGo.zoomSpeed (MainGo.main_game t0) /\
   forall inp,
     Rpower (1 + rate_after inp 0.01) (now inp - t0) <= 1e300 ->
     MainGo.zoom (MainGo.Update inp (MainGo.main_game t0)) = 1) /\
  (forall (Pow : float -> float -> float) (speed elapsed : float),
      is_finite (Pow (1 + speed)%float elapsed) = true ->
      Binary64Zoom.advance Pow 0 speed elapsed = 1%float) /\
  (forall (Pow : float -> float -> float) (speed elapsed : float),
      Pow (1 + speed)%float elapsed = infinity ->
      is_nan (Binary64Zoom.advance Pow 0 speed elapsed) = true) /\
  (forall (Pow : float -> float -> float) (z speed elapsed : float),
      is_nan z = true ->
      is_nan (Binary64Zoom.advance Pow z speed elapsed) = true).
Proof.
  assert (Hclamp : forall p, Rmax 1 (Rmin (0.0 * p) 1e15) = 1).
  { intros p. replace (0.0 * p) with 0 by lra.
    rewrite Rmin_left by lra. apply Rmax_left. lra. }
  split; [|split; [|split; [|split]]].
  - cbn [minX maxX minY maxY centerX centerY zoom zoomSpeed main_game].
    repeat split; try lra.
    intros inp _. rewrite Update_zoom.
    cbn [zoom main_game]. apply Hclamp.
  - cbn [MainGo.minX MainGo.maxX MainGo.minY MainGo.maxY MainGo.centerX
         MainGo.centerY MainGo.zoom MainGo.zoomSpeed MainGo.main_game].
    repeat split; try lra.
    intros inp _. unfold MainGo.Update, MainGo.advance.
    cbn [MainGo.zoom].
    assert (Hz : forall g, MainGo.zoom (MainGo.sidebar inp g) = MainGo.zoom g).
    { intros g. unfold MainGo.sidebar. case_ifs; reflexivity. }
    rewrite Hz. cbn [MainGo.zoom]. apply Hclamp.
  - exact Binary64ZoomFacts.b64_advance_zero_finite.
  - exact Binary64ZoomFacts.b64_advance_zero_infinite.
  - exact Binary64ZoomFacts.b64_advance_nan.
Qed.

Lemma main_game_initial_witness :
  let inp := mkInput 1 false 0 0 in
  zoom (Update inp (main_game 0)) = 1 /\
  MainGo.zoom (MainGo.Update inp (MainGo.main_game 0)) = 1 /\
  Binary64Zoom.advance (fun b _ => b) 0 0x1.47ae147ae147bp-7 1 = 1%float /\
  is_nan (Binary64Zoom.advance (fun _ _ => infinity) 0 0x1.47ae147ae147bp-7 1)
  = true.
Proof.
  intros inp.
  assert (Hp : Rpower (1 + rate_after inp 0.01) (now inp - 0) <= 1e300).
  { unfold rate_after. simpl. replace (1 - 0) with 1 by lra.
    rewrite Rpower_1 by lra. lra. }
  split; [|split; [|split]].
  - exact (proj2 (proj2 (proj2 (proj2 (proj2 (proj2 (proj2 (proj2 (proj2
             (proj1 (main_game_initial 0)))))))))) inp Hp).
  - exact (proj2 (proj2 (proj2 (proj2 (proj2 (proj2 (proj2 (proj2 (proj2
             (proj1 (proj2 (main_game_initial 0))))))))))) inp Hp).
  - apply (proj1 (proj2 (proj2 (main_game_initial 0))) (fun b _ => b)).
    reflexivity.
  - apply (proj1 (proj2 (proj2 (proj2 (main_game_initial 0))))
             (fun _ _ => infinity)).
    reflexivity.
Defined.

(** C6 (as stated) fails: the viewport [main] creates has zoom 0, not
    1, in both programs. *)
Lemma main_game_zoom_not_1 :
  zoom (main_game 0) <> 1 /\ MainGo.zoom (MainGo.main_game 0) <> 1.
Proof. cbn [zoom MainGo.zoom main_game MainGo.main_game]. split; lra. Qed.

(** ** The fractal toggle *)

Lemma toggleFractal_from_mandelbrot (g : Game) :
  fractalType g = FractalMandelbrot ->
  toggleFractal g
  = set_julia (centerX g) (centerY g) (set_fractalType FractalJulia g).
Proof. intros H. unfold toggleFractal. cbn. rewrite H. reflexivity. Qed.

Lemma toggleFractal_from_julia (g : Game) :
  fractalType g = FractalJulia ->
  toggleFractal g = set_fractalType FractalMandelbrot g.
Proof. intros H. unfold toggleFractal. cbn. rewrite H. reflexivity. Qed.

Lemma toggleFractal_kind_ok (g : Game) : kind_ok g -> kind_ok (toggleFractal g).
Proof.
  intros [H | H].
  - rewrite toggleFractal_from_mandelbrot by exact H. right. reflexivity.
  - rewrite toggleFractal_from_julia by exact H. left. reflexivity.
Qed.

(** The toggle touches the Julia constant only when it enters Julia,
    and then copies the centre. *)
Lemma toggleFractal_julia (g : Game) :
  (fractalType (toggleFractal g) = FractalJulia /\
   juliaX (toggleFractal g) = centerX g /\
   juliaY (toggleFractal g) = centerY g) \/
  (fractalType (toggleFractal g) <> FractalJulia /\
   juliaX (toggleFractal g) = juliaX g /\
   juliaY (toggleFractal g) = juliaY g).
Proof.
  unfold toggleFractal.
  destruct (fractalType (set_fractalType _ g) =? FractalJulia)%Z eqn:Hk.
  - left. apply Z.eqb_eq in Hk. cbn in *. auto.
  - right. apply Z.eqb_neq in Hk. cbn in *. auto.
Qed.

Lemma Update_kind_ok (inp : Input) (g : Game) : kind_ok g -> kind_ok (Update inp g).
Proof.
  intros H. unfold Update, advance, kind_ok. cbn [fractalType set_zoom].
  unfold sidebar. case_ifs; try exact H.
  apply (toggleFractal_kind_ok (set_lastUpdate (now inp) g)). exact H.
Qed.

Lemma run_kind_ok (inps : list Input) (g : Game) : kind_ok g -> kind_ok (run inps g).
Proof.
  revert g. induction inps as [| inp rest IH]; intros g H; simpl; [exact H|].
  apply IH. apply Update_kind_ok. exact H.
Qed.

(** C8.  From a state whose kind is Mandelbrot or Julia (every state of
    a session is), two toggles restore the kind.  A toggle that enters
    Julia sets the constant to the centre it finds; a toggle that leaves
    Julia, a later change of the centre and an update that does not
    enter Julia leave the constant as it is; no update moves the
    centre. *)
Theorem toggleFractal_twice_and_capture :
  (forall g : Game,
      kind_ok g ->
      fractalType (toggleFractal (toggleFractal g)) = fractalType g) /\
  (forall (t0 : R) (inps : list Input), kind_ok (run inps (main_game t0))) /\
  (forall g : Game,
      fractalType (toggleFractal g) = FractalJulia ->
      juliaX (toggleFractal g) = centerX g /\
      juliaY (toggleFractal g) = centerY g) /\
  (forall g : Game,
      fractalType (toggleFractal g) <> FractalJulia ->
      juliaX (toggleFractal g) = juliaX g /\
      juliaY (toggleFractal g) = juliaY g) /\
  (forall (g : Game) (x y : R),
      juliaX (set_center x y (toggleFractal g)) = juliaX (toggleFractal g) /\
      juliaY (set_center x y (toggleFractal g)) = juliaY (toggleFractal g)) /\
  (forall (inp : Input) (g : Game),
      centerX (Update inp g) = centerX g /\
      centerY (Update inp g) = centerY g /\
      ((juliaX (Update inp g) = juliaX g /\ juliaY (Update inp g) = juliaY g) \/
       (fractalType (Update inp g) = FractalJulia /\
        juliaX (Update inp g) = centerX g /\
        juliaY (Update inp g) = centerY g))).
Proof.
  repeat apply conj.
  - intros g [H | H].
    + rewrite (toggleFractal_from_mandelbrot g H).
      rewrite toggleFractal_from_julia by reflexivity.
      cbn. symmetry. exact H.
    + rewrite (toggleFractal_from_julia g H).
      rewrite toggleFractal_from_mandelbrot by reflexivity.
      cbn. symmetry. exact H.
  - intros t0 inps. apply run_kind_ok. left. reflexivity.
  - intros g H. destruct (toggleFractal_julia g) as [[_ Hj] | [Hk _]];
      [exact Hj | contradiction].
  - intros g H. destruct (toggleFractal_julia g) as [[Hk _] | [_ Hj]];
      [contradiction | exact Hj].
  - intros g x y. split; reflexivity.
  - intros inp g.
    assert (Hc : forall g0, centerX (toggleFractal g0) = centerX g0 /\
                            centerY (toggleFractal g0) = centerY g0).
    { intros g0. unfold toggleFractal.
      destruct (fractalType _ =? FractalJulia)%Z; split; reflexivity. }
    unfold Update, advance.
    cbn [centerX centerY juliaX juliaY fractalType set_zoom].
    unfold sidebar.
    destruct (mousePressed inp); [|auto].
    destruct (cursorX inp <? 100)%Z; [|auto].
    destruct ((cursorY inp >=? 70)%Z && (cursorY inp <=? 270)%Z); [auto|].
    destruct ((cursorY inp >=? 300)%Z && (cursorY inp <=? 340)%Z); [|auto].
    destruct (Hc (set_lastUpdate (now inp) g)) as [Hx Hy].
    split; [exact Hx|]. split; [exact Hy|].
    destruct (toggleFractal_julia (set_lastUpdate (now inp) g))
      as [[Hk Hj] | [_ Hj]]; [right | left]; auto.
Qed.

Lemma toggleFractal_twice_and_capture_witness :
  kind_ok (main_game 0) /\
  fractalType (toggleFractal (toggleFractal (main_game 0)))
  = fractalType (main_game 0) /\
  juliaX (toggleFractal (main_game 0)) = centerX (main_game 0) /\
  juliaY (toggleFractal (main_game 0)) = centerY (main_game 0).
Proof.
  assert (Hk : kind_ok (main_game 0)) by (left; reflexivity).
  split; [exact Hk|]. split.
  - exact (proj1 toggleFractal_twice_and_capture (main_game 0) Hk).
  - exact (proj1 (proj2 (proj2 toggleFractal_twice_and_capture))
                 (main_game 0) eq_refl).
Defined.

(** * Further properties of the code *)

(** ** The evaluators and the orbit *)

(** [k] rounds of the loop body walk [k] steps along the orbit and count
    them. *)
Lemma iter_loop_body (cx cy : R) (s : LoopState) (k : nat) :
  let s' := Nat.iter k (loop_body cx cy) s in
  (lx s', ly s') = orbit cx cy (lx s, ly s) k /\
  literation s' = (literation s + Z.of_nat k)%Z.
Proof.
  induction k as [| k IH]; cbv zeta.
  - simpl. split; [reflexivity | lia].
  - cbv zeta in IH. destruct IH as [Ho Hi].
    unfold orbit in *. rewrite !Nat.iter_succ, <- Ho.
    set (sk := Nat.iter k (loop_body cx cy) s) in *.
    unfold loop_body, quadratic_step. cbn [lx ly literation fst snd].
    split; [reflexivity | lia].
Qed.

(** The unrolled loop stops at the first round whose test fails, or when
    the fuel is spent. *)
Lemma escape_loop_iter (fuel : nat) (cx cy : R) (maxIter : Z) (s : LoopState) :
  exists n : nat,
    (n <= fuel)%nat /\
    escape_loop fuel cx cy maxIter s = Nat.iter n (loop_body cx cy) s /\
    (forall k, (k < n)%nat ->
               loop_cond maxIter (Nat.iter k (loop_body cx cy) s) = true) /\
    ((n < fuel)%nat ->
     loop_cond maxIter (Nat.iter n (loop_body cx cy) s) = false).
Proof.
  revert s. induction fuel as [| fuel IH]; intros s.
  - exists O. split; [lia|]. split; [reflexivity|]. split; intros; lia.
  - cbn [escape_loop]. destruct (loop_cond maxIter s) eqn:Hc.
    + destruct (IH (loop_body cx cy s)) as [n [Hn [He [Ht Hf]]]].
      exists (S n). rewrite Nat.iter_succ_r.
      split; [lia|]. split; [exact He|]. split.
      * intros [| k] Hk; [exact Hc|].
        rewrite Nat.iter_succ_r. apply Ht. lia.
      * intros Hlt. apply Hf. lia.
    + exists O. split; [lia|]. split; [reflexivity|].
      split; [intros; lia | intros _; exact Hc].
Qed.

(** The loop test on the [k]-th state, read on the orbit. *)
Lemma loop_cond_orbit (cx cy : R) (maxIter : Z) (x y : R) (k : nat) :
  loop_cond maxIter (Nat.iter k (loop_body cx cy) (mkLoop x y 0))
  = Rleb (modulus2 (orbit cx cy (x, y) k)) 4 && (Z.of_nat k <? maxIter)%Z.
Proof.
  destruct (iter_loop_body cx cy (mkLoop x y 0) k) as [Ho Hi].
  cbn [lx ly literation] in Ho, Hi. unfold loop_cond, modulus2.
  rewrite <- Ho, Hi. reflexivity.
Qed.

(** The value of [julia] when the orbit first leaves the disc at step
    [n], within the budget. *)
Lemma julia_escape_at (x y cx cy : R) (maxIter : Z) (n : nat) :
  (forall k, (k < n)%nat -> modulus2 (orbit cx cy (x, y) k) <= 4) ->
  4 < modulus2 (orbit cx cy (x, y) n) ->
  (Z.of_nat n < maxIter)%Z ->
  julia x y cx cy maxIter
  = IZR (Z.of_nat n) + 1
    - ln (ln (modulus2 (orbit cx cy (x, y) n)) / 2) / ln 2.
Proof.
  intros Hin Hout Hn. rewrite julia_spec.
  destruct (escape_loop_iter (Z.to_nat maxIter) cx cy maxIter (mkLoop x y 0))
    as [n0 [Hn0 [He [Ht Hf]]]].
  assert (Heq : n0 = n).
  { destruct (Nat.lt_total n0 n) as [Hlt | [Heq | Hgt]]; [| exact Heq |].
    - exfalso. specialize (Hf ltac:(lia)). rewrite loop_cond_orbit in Hf.
      specialize (Hin n0 Hlt).
      rewrite (proj2 (Rleb_true _ _) Hin) in Hf.
      replace (Z.of_nat n0 <? maxIter)%Z with true in Hf
        by (symmetry; apply Z.ltb_lt; lia).
      discriminate Hf.
    - exfalso. specialize (Ht n Hgt). rewrite loop_cond_orbit in Ht.
      rewrite (proj2 (Rleb_false _ _) Hout) in Ht. discriminate Ht. }
  subst n0. rewrite He.
  destruct (iter_loop_body cx cy (mkLoop x y 0) n) as [Ho Hi].
  cbn [lx ly literation] in Ho, Hi. unfold smooth. rewrite Hi.
  replace (0 + Z.of_nat n <? maxIter)%Z with true
    by (symmetry; apply Z.ltb_lt; lia).
  unfold modulus2. rewrite <- Ho. cbn [fst snd Z.add]. reflexivity.
Qed.

(** The value of [julia] when the orbit stays in the disc for the whole
    budget. *)
Lemma julia_interior (x y cx cy : R) (maxIter : Z) :
  (forall k, (Z.of_nat k < maxIter)%Z -> modulus2 (orbit cx cy (x, y) k) <= 4) ->
  julia x y cx cy maxIter = float64 maxIter.
Proof.
  intros Hin. rewrite julia_spec.
  destruct (escape_loop_iter (Z.to_nat maxIter) cx cy maxIter (mkLoop x y 0))
    as [n0 [Hn0 [He [Ht Hf]]]].
  assert (Heq : n0 = Z.to_nat maxIter).
  { destruct (Nat.eq_dec n0 (Z.to_nat maxIter)) as [Heq | Hne]; [exact Heq|].
    exfalso. specialize (Hf ltac:(lia)). rewrite loop_cond_orbit in Hf.
    rewrite (proj2 (Rleb_true _ _) (Hin n0 ltac:(lia))) in Hf.
    replace (Z.of_nat n0 <? maxIter)%Z with true in Hf
      by (symmetry; apply Z.ltb_lt; lia).
    discriminate Hf. }
  rewrite He, Heq.
  destruct (iter_loop_body cx cy (mkLoop x y 0) (Z.to_nat maxIter)) as [_ Hi].
  cbn [literation] in Hi. unfold smooth. rewrite Hi.
  replace (0 + Z.of_nat (Z.to_nat maxIter) <? maxIter)%Z with false
    by (symmetry; apply Z.ltb_ge; lia).
  reflexivity.
Qed.

(** The escape value depends on the point and the constant only through
    the squared moduli along the orbit. *)
Lemma julia_moduli (x y cx cy x' y' cx' cy' : R) (maxIter : Z) :
  (forall k, modulus2 (orbit cx' cy' (x', y') k)
             = modulus2 (orbit cx cy (x, y) k)) ->
  julia x' y' cx' cy' maxIter = julia x y cx cy maxIter.
Proof.
  intros Hm.
  destruct (escape_loop_iter (Z.to_nat maxIter) cx cy maxIter (mkLoop x y 0))
    as [n [Hn [_ [Ht Hf]]]].
  assert (Hin : forall k, (k < n)%nat -> modulus2 (orbit cx cy (x, y) k) <= 4).
  { intros k Hk. specialize (Ht k Hk). rewrite loop_cond_orbit in Ht.
    apply andb_true_iff in Ht as [Ht _]. apply Rleb_true. exact Ht. }
  destruct (Nat.eq_dec n (Z.to_nat maxIter)) as [Heq | Hne].
  - rewrite (julia_interior x y cx cy), (julia_interior x' y' cx' cy');
      [reflexivity | |]; intros k Hk; try rewrite Hm; apply Hin; lia.
  - specialize (Hf ltac:(lia)). rewrite loop_cond_orbit in Hf.
    replace (Z.of_nat n <? maxIter)%Z with true in Hf
      by (symmetry; apply Z.ltb_lt; lia).
    rewrite andb_true_r in Hf. apply Rleb_false in Hf.
    rewrite (julia_escape_at x y cx cy maxIter n),
            (julia_escape_at x' y' cx' cy' maxIter n); try lia.
    + rewrite Hm. reflexivity.
    + intros k Hk. rewrite Hm. apply Hin. exact Hk.
    + rewrite Hm. exact Hf.
    + exact Hin.
    + exact Hf.
Qed.

(** Mirror images have mirrored orbits. *)
Lemma orbit_conj (cx cy x y : R) (k : nat) :
  orbit cx (- cy) (x, - y) k
  = (fst (orbit cx cy (x, y) k), - snd (orbit cx cy (x, y) k)).
Proof.
  unfold orbit. induction k as [| k IH]; [reflexivity|].
  rewrite !Nat.iter_succ, IH. unfold quadratic_step. cbn [fst snd].
  f_equal; ring.
Qed.

(** A point and its opposite have the same orbit after the first
    step. *)
Lemma orbit_opp (cx cy x y : R) (k : nat) :
  orbit cx cy (- x, - y) (S k) = orbit cx cy (x, y) (S k).
Proof.
  unfold orbit. rewrite !Nat.iter_succ_r. f_equal.
  unfold quadratic_step. cbn [fst snd]. f_equal; ring.
Qed.





(** X3.  Symmetries of the two evaluators: [mandelbrot] takes the same
    value at [(cx, cy)] and at its mirror image [(cx, -cy)]; [julia]
    takes the same value at a point and at its opposite, and at mirrored
    points for mirrored constants. *)
Theorem escape_value_symmetry (x y cx cy : R) (maxIter : Z) :
  mandelbrot cx (- cy) maxIter = mandelbrot cx cy maxIter /\
  julia (- x) (- y) cx cy maxIter = julia x y cx cy maxIter /\
  julia x (- y) cx (- cy) maxIter = julia x y cx cy maxIter.
Proof.
  assert (Hconj : forall a b, julia a (- b) cx (- cy) maxIter
                              = julia a b cx cy maxIter).
  { intros a b. apply julia_moduli. intros k. rewrite orbit_conj.
    unfold modulus2. cbn [fst snd]. ring. }
  split; [|split].
  - rewrite (mandelbrot_unfold cx cy), (mandelbrot_unfold cx (- cy)).
    rewrite <- (Hconj 0 0), Ropp_0. reflexivity.
  - apply julia_moduli. intros [| k].
    + unfold modulus2, orbit. simpl. ring.
    + rewrite orbit_opp. reflexivity.
  - apply Hconj.
Qed.

(** ** The view: pixels to plane points *)

(** The plane point of a pixel is the affine interpolation of the view
    rectangle, whose sides are the base sides divided by the zoom. *)
Lemma plane_point_affine (g : Game) (W H x y : Z) :
  (0 < W)%Z -> (0 < H)%Z -> zoom g <> 0 ->
  plane_point g W H x y
  = (centerX g - (maxX g - minX g) / zoom g / 2
     + (maxX g - minX g) / zoom g * (IZR x / IZR W),
     centerY g - (maxY g - minY g) / zoom g / 2
     + (maxY g - minY g) / zoom g * (IZR y / IZR H)).
Proof.
  intros HW HH Hz.
  assert (IZR W <> 0) by (apply not_0_IZR; lia).
  assert (IZR H <> 0) by (apply not_0_IZR; lia).
  unfold plane_point, float64. f_equal; field; split; assumption.
Qed.

Lemma pixel_fraction (x W : Z) :
  (0 < W)%Z -> (0 <= x <= W)%Z -> 0 <= IZR x / IZR W <= 1.
Proof.
  intros HW Hx. assert (0 < IZR W) by (apply IZR_lt; exact HW).
  assert (0 <= IZR x) by (apply IZR_le; lia).
  assert (IZR x <= IZR W) by (apply IZR_le; lia).
  split.
  - apply Rmult_le_pos; [assumption | left; apply Rinv_0_lt_compat; assumption].
  - apply Rmult_le_reg_r with (IZR W); [assumption|].
    unfold Rdiv. rewrite Rmult_assoc, Rinv_l by lra. lra.
Qed.

(** The plane point of a pixel of the screen lies in the view
    rectangle. *)
Lemma plane_point_bounds (g : Game) (W H x y : Z) :
  (0 < W)%Z -> (0 < H)%Z ->
  0 < zoom g ->
  minX g <= maxX g -> minY g <= maxY g ->
  (0 <= x <= W)%Z -> (0 <= y <= H)%Z ->
  let width := (maxX g - minX g) / zoom g in
  let height := (maxY g - minY g) / zoom g in
  centerX g - width / 2 <= fst (plane_point g W H x y) <= centerX g + width / 2 /\
  centerY g - height / 2 <= snd (plane_point g W H x y) <= centerY g + height / 2.
Proof.
  intros HW HH Hz HX HY Hx Hy width height.
  assert (Hw : 0 <= width).
  { unfold width. apply Rmult_le_pos; [lra | left; apply Rinv_0_lt_compat; exact Hz]. }
  assert (Hh : 0 <= height).
  { unfold height. apply Rmult_le_pos; [lra | left; apply Rinv_0_lt_compat; exact Hz]. }
  rewrite plane_point_affine by (try assumption; lra). fold width height.
  cbn [fst snd].
  pose proof (pixel_fraction x W HW Hx) as Hfx.
  pose proof (pixel_fraction y H HH Hy) as Hfy.
  repeat split; nra.
Qed.

(** X4.  In exact arithmetic ([float64] read as real numbers): on a
    screen of [W] by [H] pixels and for a positive zoom, pixel [(0, 0)]
    is mapped to the corner [centre - size/2] of the view rectangle,
    [(W, H)] to the opposite corner [centre + size/2], and every pixel
    in between to a point of the rectangle, whose sides are the base
    sides divided by the zoom.  On binary64 the operations round, and
    the point of the far edge can be off in the last place. *)
Theorem plane_point_in_view (g : Game) (W H x y : Z) :
  (0 < W)%Z -> (0 < H)%Z ->
  0 < zoom g ->
  minX g <= maxX g -> minY g <= maxY g ->
  (0 <= x <= W)%Z -> (0 <= y <= H)%Z ->
  let width := (maxX g - minX g) / zoom g in
  let height := (maxY g - minY g) / zoom g in
  plane_point g W H 0 0 = (centerX g - width / 2, centerY g - height / 2) /\
  plane_point g W H W H = (centerX g + width / 2, centerY g + height / 2) /\
  centerX g - width / 2 <= fst (plane_point g W H x y) <= centerX g + width / 2 /\
  centerY g - height / 2 <= snd (plane_point g W H x y) <= centerY g + height / 2.
Proof.
  intros HW HH Hz HX HY Hx Hy width height.
  assert (HWr : 0 < IZR W) by (apply IZR_lt; exact HW).
  assert (HHr : 0 < IZR H) by (apply IZR_lt; exact HH).
  assert (Hw : 0 <= width).
  { unfold width. apply Rmult_le_pos; [lra | left; apply Rinv_0_lt_compat; exact Hz]. }
  assert (Hh : 0 <= height).
  { unfold height. apply Rmult_le_pos; [lra | left; apply Rinv_0_lt_compat; exact Hz]. }
  rewrite !plane_point_affine by (try assumption; lra). fold width height.
  cbn [fst snd].
  pose proof (pixel_fraction x W HW Hx) as Hfx.
  pose proof (pixel_fraction y H HH Hy) as Hfy.
  repeat split.
  - f_equal; unfold Rdiv; rewrite Rmult_0_l; ring.
  - replace (IZR W / IZR W) with 1 by (field; lra).
    replace (IZR H / IZR H) with 1 by (field; lra).
    f_equal; lra.
  - nra.
  - nra.
  - nra.
  - nra.
Qed.

Lemma plane_point_in_view_witness :
  let g := mkGame (-2.5) 1 (-1.5) 1.5 0 0 0 0 2 0.01 0 0 in
  plane_point g 640 480 0 0 = (0 - 3.5 / 2 / 2, 0 - 3 / 2 / 2) /\
  plane_point g 640 480 640 480 = (0 + 3.5 / 2 / 2, 0 + 3 / 2 / 2).
Proof.
  intros g.
  destruct (plane_point_in_view g 640 480 320 240) as [H0 [H1 _]];
    try lia; try (simpl; lra).
  cbn [minX maxX minY maxY centerX centerY zoom g] in H0, H1.
  rewrite H0, H1. split; f_equal; lra.
Defined.

(** ** Sessions *)

(** No update touches the base rectangle or the centre. *)
Lemma Update_view (inp : Input) (g : Game) :
  minX (Update inp g) = minX g /\ maxX (Update inp g) = maxX g /\
  minY (Update inp g) = minY g /\ maxY (Update inp g) = maxY g /\
  centerX (Update inp g) = centerX g /\ centerY (Update inp g) = centerY g.
Proof.
  unfold Update, advance, sidebar, toggleFractal.
  case_ifs; repeat split; reflexivity.
Qed.

Lemma run_view (inps : list Input) (g : Game) :
  minX (run inps g) = minX g /\ maxX (run inps g) = maxX g /\
  minY (run inps g) = minY g /\ maxY (run inps g) = maxY g /\
  centerX (run inps g) = centerX g /\ centerY (run inps g) = centerY g.
Proof.
  revert g. induction inps as [| inp rest IH]; intros g; simpl.
  - repeat split; reflexivity.
  - destruct (IH (Update inp g)) as [H1 [H2 [H3 [H4 [H5 H6]]]]].
    destruct (Update_view inp g) as [U1 [U2 [U3 [U4 [U5 U6]]]]].
    repeat split; congruence.
Qed.

Lemma run_zoom_range (inps : list Input) (g : Game) :
  inps <> [] -> 1 <= zoom (run inps g) <= 1e15.
Proof.
  revert g. induction inps as [| inp rest IH]; intros g Hne; [contradiction|].
  simpl. destruct rest as [| inp' rest'].
  - simpl. apply Update_zoom_range.
  - apply IH. discriminate.
Qed.

Lemma Update_zoomSpeed_range (inp : Input) (g : Game) :
  0 <= zoomSpeed g <= 0.5 -> 0 <= zoomSpeed (Update inp g) <= 0.5.
Proof.
  intros H. unfold Update. rewrite zoomSpeed_advance. unfold sidebar.
  destruct (mousePressed inp); [|exact H].
  destruct (cursorX inp <? 100)%Z; [|exact H].
  destruct ((cursorY inp >=? 70)%Z && (cursorY inp <=? 270)%Z) eqn:Hy.
  - apply andb_true_iff in Hy as [Hlo Hhi].
    apply Z.geb_le in Hlo. apply Z.leb_le in Hhi.
    cbn [zoomSpeed set_zoomSpeed]. unfold float64.
    assert (0 <= IZR (cursorY inp - 70)) by (apply IZR_le; lia).
    assert (IZR (cursorY inp - 70) <= 200) by (apply IZR_le; lia).
    lra.
  - destruct ((cursorY inp >=? 300)%Z && (cursorY inp <=? 340)%Z); [|exact H].
    unfold toggleFractal.
    destruct (fractalType _ =? FractalJulia)%Z; exact H.
Qed.

Lemma run_zoomSpeed_range (inps : list Input) (g : Game) :
  0 <= zoomSpeed g <= 0.5 -> 0 <= zoomSpeed (run inps g) <= 0.5.
Proof.
  revert g. induction inps as [| inp rest IH]; intros g H; simpl; [exact H|].
  apply IH. apply Update_zoomSpeed_range. exact H.
Qed.

(** An update keeps the Julia constant or sets it to the centre. *)
Lemma Update_julia (inp : Input) (g : Game) :
  (juliaX (Update inp g) = juliaX g /\ juliaY (Update inp g) = juliaY g) \/
  (juliaX (Update inp g) = centerX g /\ juliaY (Update inp g) = centerY g).
Proof.
  unfold Update, advance. cbn [juliaX juliaY set_zoom]. unfold sidebar.
  destruct (mousePressed inp); [|auto].
  destruct (cursorX inp <? 100)%Z; [|auto].
  destruct ((cursorY inp >=? 70)%Z && (cursorY inp <=? 270)%Z); [auto|].
  destruct ((cursorY inp >=? 300)%Z && (cursorY inp <=? 340)%Z); [|auto].
  destruct (toggleFractal_julia (set_lastUpdate (now inp) g))
    as [[_ Hj] | [_ Hj]]; [right | left]; exact Hj.
Qed.

Lemma run_julia (inps : list Input) (g : Game) :
  (juliaX (run inps g) = juliaX g /\ juliaY (run inps g) = juliaY g) \/
  (juliaX (run inps g) = centerX g /\ juliaY (run inps g) = centerY g).
Proof.
  revert g. induction inps as [| inp rest IH]; intros g; simpl; [auto|].
  destruct (Update_view inp g) as [_ [_ [_ [_ [U5 U6]]]]].
  destruct (IH (Update inp g)) as [[Hx Hy] | [Hx Hy]].
  - destruct (Update_julia inp g) as [[Ux Uy] | [Ux Uy]];
      [left | right]; split; congruence.
  - right. split; congruence.
Qed.

Lemma first_power_nonempty (t0 : R) (inps : list Input) :
  first_power_in_range t0 inps -> inps <> [].
Proof. destruct inps; [contradiction | discriminate]. Qed.

Lemma MainGo_run_embed (inps : list Input) (g' : MainGo.Game) :
  MainGo.run inps g' = forget (run inps (embed g')).
Proof. rewrite forget_run, forget_embed. reflexivity. Qed.

(** X5.  What every state of a session satisfies, whatever the clock
    and the mouse do: the base rectangle and the centre are those of
    [main], the rate is between 0 and 0.5 and the Julia constant is
    [main]'s [(0, 0)] or the centre; and when the power of the first
    update is finite (at most 1e300, so that [0 * power] is 0 and not
    NaN), the zoom is in [1, 1e15] from the first update on.  Likewise
    for [main.go]. *)
Theorem session_invariants (t0 : R) (inps : list Input) :
  (let g := run inps (main_game t0) in
   minX g = -2.5 /\ maxX g = 1 /\ minY g = -1.5 /\ maxY g = 1.5 /\
   centerX g = 0.42884 /\ centerY g = -0.231345 /\
   0 <= zoomSpeed g <= 0.5 /\
   ((juliaX g = 0 /\ juliaY g = 0) \/
    (juliaX g = centerX g /\ juliaY g = centerY g)) /\
   (first_power_in_range t0 inps -> 1 <= zoom g <= 1e15)) /\
  (let g' := MainGo.run inps (MainGo.main_game t0) in
   MainGo.minX g' = -2.5 /\ MainGo.maxX g' = 1 /\
   MainGo.minY g' = -1.5 /\ MainGo.maxY g' = 1.5 /\
   MainGo.centerX g' = -0.7445398603559083806 /\
   MainGo.centerY g' = 0.1217237738944248242 /\
   0 <= MainGo.zoomSpeed g' <= 0.5 /\
   (first_power_in_range t0 inps -> 1 <= MainGo.zoom g' <= 1e15)).
Proof.
  split; cbv zeta.
  - destruct (run_view inps (main_game t0)) as [H1 [H2 [H3 [H4 [H5 H6]]]]].
    rewrite H1, H2, H3, H4, H5, H6.
    cbn [minX maxX minY maxY centerX centerY main_game].
    repeat (split; [lra|]).
    split; [apply run_zoomSpeed_range; cbn; lra|].
    split; [|intros Hp; apply run_zoom_range, (first_power_nonempty t0 inps Hp)].
    destruct (run_julia inps (main_game t0)) as [[Hx Hy] | [Hx Hy]];
      [left | right]; rewrite Hx, Hy; cbn; split; lra.
  - rewrite MainGo_run_embed.
    set (g := run inps (embed (MainGo.main_game t0))).
    change (MainGo.minX (forget g)) with (minX g).
    change (MainGo.maxX (forget g)) with (maxX g).
    change (MainGo.minY (forget g)) with (minY g).
    change (MainGo.maxY (forget g)) with (maxY g).
    change (MainGo.centerX (forget g)) with (centerX g).
    change (MainGo.centerY (forget g)) with (centerY g).
    change (MainGo.zoomSpeed (forget g)) with (zoomSpeed g).
    change (MainGo.zoom (forget g)) with (zoom g).
    destruct (run_view inps (embed (MainGo.main_game t0)))
      as [H1 [H2 [H3 [H4 [H5 H6]]]]].
    subst g. rewrite H1, H2, H3, H4, H5, H6.
    cbn [minX maxX minY maxY centerX centerY embed MainGo.minX MainGo.maxX
         MainGo.minY MainGo.maxY MainGo.centerX MainGo.centerY
         MainGo.main_game].
    repeat (split; [lra|]).
    split; [apply run_zoomSpeed_range; cbn; lra|].
    intros Hp. apply run_zoom_range, (first_power_nonempty t0 inps Hp).
Qed.

Lemma session_invariants_witness :
  let g := run [mkInput 1 true 10 300] (main_game 0) in
  1 <= zoom g <= 1e15.
Proof.
  intros g.
  apply (proj1 (session_invariants 0 [mkInput 1 true 10 300])).
  unfold first_power_in_range, rate_after. simpl.
  replace (1 - 0) with 1 by lra. rewrite Rpower_1 by lra. lra.
Defined.

(** Dividing a side by a larger zoom gives a shorter side. *)
Lemma side_shrinks (side z z' : R) :
  0 <= side -> 0 < z -> z <= z' -> side / z' <= side / z.
Proof.
  intros Hs Hz Hzz. unfold Rdiv. apply Rmult_le_compat_l; [exact Hs|].
  apply Rinv_le_contravar; assumption.
Qed.

(** X6.  In exact arithmetic ([float64] read as real numbers), zooming
    never widens the view: along a session that starts with a clamped
    zoom and a rate that is not negative, and whose clock does not go
    back, every pixel [Draw] maps in a later frame ([0 <= x < W],
    [0 <= y < H]) is mapped into the view rectangle of the first
    frame. *)
Theorem view_never_widens (inps : list Input) (g : Game) (W H x y : Z) :
  zoom_ok g ->
  clock_monotone (lastUpdate g) inps ->
  minX g <= maxX g -> minY g <= maxY g ->
  (0 < W)%Z -> (0 < H)%Z ->
  (0 <= x < W)%Z -> (0 <= y < H)%Z ->
  let width := (maxX g - minX g) / zoom g in
  let height := (maxY g - minY g) / zoom g in
  let c := plane_point (run inps g) W H x y in
  centerX g - width / 2 <= fst c <= centerX g + width / 2 /\
  centerY g - height / 2 <= snd c <= centerY g + height / 2.
Proof.
  intros Hok Hc HX HY HW HH Hx Hy width height c.
  destruct (run_zoom_mono inps g Hok Hc) as [Hm _].
  destruct Hok as [[Hlo _] _].
  destruct (run_view inps g) as [H1 [H2 [H3 [H4 [H5 H6]]]]].
  pose proof (plane_point_bounds (run inps g) W H x y HW HH) as Hb.
  rewrite H1, H2, H3, H4, H5, H6 in Hb.
  specialize (Hb ltac:(lra) HX HY ltac:(lia) ltac:(lia)).
  cbv zeta in Hb. fold c in Hb.
  pose proof (side_shrinks (maxX g - minX g) (zoom g) (zoom (run inps g))
                ltac:(lra) ltac:(lra) Hm) as Hw.
  pose proof (side_shrinks (maxY g - minY g) (zoom g) (zoom (run inps g))
                ltac:(lra) ltac:(lra) Hm) as Hh.
  unfold width, height. lra.
Qed.

Lemma view_never_widens_witness :
  let g := mkGame (-2.5) 1 (-1.5) 1.5 0 0 0 0 1 0.01 0 0 in
  let c := plane_point (run [mkInput 1 false 0 0; mkInput 2 true 10 270] g)
                       640 480 100 100 in
  0 - 3.5 / 1 / 2 <= fst c <= 0 + 3.5 / 1 / 2 /\
  0 - 3 / 1 / 2 <= snd c <= 0 + 3 / 1 / 2.
Proof.
  intros g c.
  pose proof (view_never_widens [mkInput 1 false 0 0; mkInput 2 true 10 270]
                g 640 480 100 100) as H.
  cbn [minX maxX minY maxY centerX centerY zoom lastUpdate g] in H.
  fold c in H.
  assert (Hok : zoom_ok g) by (unfold zoom_ok; simpl; lra).
  specialize (H Hok). simpl clock_monotone in H.
  specialize (H ltac:(lra) ltac:(lra) ltac:(lra) ltac:(lia) ltac:(lia)
                ltac:(lia) ltac:(lia)).
  cbv zeta in H. fold c in H. lra.
Defined.

(** The points of a view inside the base rectangle of [main], around a
    centre close to the origin, have squared modulus at most 16. *)
Lemma plane_point_modulus (g : Game) (W H x y : Z) :
  minX g = -2.5 -> maxX g = 1 -> minY g = -1.5 -> maxY g = 1.5 ->
  -0.75 <= centerX g <= 0.75 -> -0.25 <= centerY g <= 0.25 ->
  1 <= zoom g ->
  (0 < W)%Z -> (0 < H)%Z -> (0 <= x <= W)%Z -> (0 <= y <= H)%Z ->
  let c := plane_point g W H x y in
  fst c * fst c + snd c * snd c <= 16.
Proof.
  intros H1 H2 H3 H4 HcX HcY Hz HW HH Hx Hy c.
  pose proof (plane_point_bounds g W H x y HW HH ltac:(lra)) as Hb.
  rewrite H1, H2, H3, H4 in Hb.
  specialize (Hb ltac:(lra) ltac:(lra) Hx Hy). cbv zeta in Hb. fold c in Hb.
  pose proof (side_shrinks (1 - -2.5) 1 (zoom g) ltac:(lra) ltac:(lra) Hz) as Hw.
  pose proof (side_shrinks (1.5 - -1.5) 1 (zoom g) ltac:(lra) ltac:(lra) Hz) as Hh.
  assert (Hw0 : 0 <= (1 - -2.5) / zoom g).
  { apply Rmult_le_pos; [lra | left; apply Rinv_0_lt_compat; lra]. }
  assert (Hh0 : 0 <= (1.5 - -1.5) / zoom g).
  { apply Rmult_le_pos; [lra | left; apply Rinv_0_lt_compat; lra]. }
  assert (-2.5 <= fst c <= 2.5) by lra.
  assert (-1.75 <= snd c <= 1.75) by lra.
  nra.
Qed.

(** X7.  In every frame of a session whose first update has a finite
    power (at most 1e300, so that the zoom is 1 and not NaN after it),
    the escape value [Draw] computes for a pixel of the screen lies in
    [0, maxIter + 1): in [0, 201) for the two-fractal program, whichever
    fractal is shown, and in [0, 101) for [main.go] ([float64] read as
    real numbers). *)
Theorem pixel_escape_value_range (t0 : R) (inps : list Input) (W H x y : Z) :
  first_power_in_range t0 inps ->
  (0 < W)%Z -> (0 < H)%Z -> (0 <= x <= W)%Z -> (0 <= y <= H)%Z ->
  (let g := run inps (main_game t0) in
   0 <= pixel_iterations g 200 (plane_point g W H x y) < 201) /\
  (let g' := MainGo.run inps (MainGo.main_game t0) in
   let c := plane_point (embed g') W H x y in
   MainGo.pixel_color g' W H x y
   = getColor (int (mandelbrot (fst c) (snd c) 100)) 100 /\
   0 <= mandelbrot (fst c) (snd c) 100 < 101).
Proof.
  intros Hpow HW HH Hx Hy.
  pose proof (first_power_nonempty t0 inps Hpow) as Hne.
  split; cbv zeta.
  - set (g := run inps (main_game t0)).
    destruct (run_view inps (main_game t0)) as [H1 [H2 [H3 [H4 [H5 H6]]]]].
    fold g in H1, H2, H3, H4, H5, H6.
    cbn [minX maxX minY maxY centerX centerY main_game] in H1, H2, H3, H4, H5, H6.
    pose proof (run_zoom_range inps (main_game t0) Hne) as Hz. fold g in Hz.
    pose proof (plane_point_modulus g W H x y) as Hm.
    rewrite H1, H2, H3, H4, H5, H6 in Hm.
    specialize (Hm ltac:(lra) ltac:(lra) ltac:(lra) ltac:(lra) ltac:(lra)
                   ltac:(lra) ltac:(lra) HW HH Hx Hy).
    cbv zeta in Hm. set (c := plane_point g W H x y) in *.
    assert (Hk : kind_ok g) by (apply run_kind_ok; left; reflexivity).
    unfold pixel_iterations. destruct Hk as [Hk | Hk]; rewrite Hk.
    + cbn [Z.eqb FractalMandelbrot]. rewrite mandelbrot_unfold.
      pose proof (julia_range 0 0 (fst c) (snd c) 200
                    ltac:(lia) ltac:(lra) Hm) as Hr.
      unfold float64 in Hr. lra.
    + cbn [Z.eqb FractalMandelbrot FractalJulia Pos.eqb].
      assert (Hj : juliaX g * juliaX g + juliaY g * juliaY g <= 16).
      { destruct (run_julia inps (main_game t0)) as [[Hx0 Hy0] | [Hx0 Hy0]];
          fold g in Hx0, Hy0; rewrite Hx0, Hy0; cbn; lra. }
      pose proof (julia_range (fst c) (snd c) (juliaX g) (juliaY g) 200
                    ltac:(lia) Hm Hj) as Hr.
      unfold float64 in Hr. lra.
  - set (g := run inps (embed (MainGo.main_game t0))).
    rewrite MainGo_run_embed. fold g.
    assert (Hemb : embed (forget g) = set_fractalType 0 (set_julia 0 0 g))
      by (destruct g; reflexivity).
    split; [rewrite Hemb; reflexivity|].
    rewrite Hemb.
    change (plane_point (set_fractalType 0 (set_julia 0 0 g)) W H x y)
      with (plane_point g W H x y).
    destruct (run_view inps (embed (MainGo.main_game t0)))
      as [H1 [H2 [H3 [H4 [H5 H6]]]]].
    fold g in H1, H2, H3, H4, H5, H6.
    cbn [minX maxX minY maxY centerX centerY embed MainGo.minX MainGo.maxX
         MainGo.minY MainGo.maxY MainGo.centerX MainGo.centerY
         MainGo.main_game] in H1, H2, H3, H4, H5, H6.
    pose proof (run_zoom_range inps (embed (MainGo.main_game t0)) Hne) as Hz.
    fold g in Hz.
    pose proof (plane_point_modulus g W H x y) as Hm.
    rewrite H1, H2, H3, H4, H5, H6 in Hm.
    specialize (Hm ltac:(lra) ltac:(lra) ltac:(lra) ltac:(lra) ltac:(lra)
                   ltac:(lra) ltac:(lra) HW HH Hx Hy).
    cbv zeta in Hm. set (c := plane_point g W H x y) in *.
    rewrite mandelbrot_unfold.
    pose proof (julia_range 0 0 (fst c) (snd c) 100
                  ltac:(lia) ltac:(lra) Hm) as Hr.
    unfold float64 in Hr. lra.
Qed.

Lemma pixel_escape_value_range_witness :
  let g := run [mkInput 1 false 0 0] (main_game 0) in
  0 <= pixel_iterations g 200 (plane_point g 640 480 320 240) < 201.
Proof.
  intros g.
  assert (Hp : first_power_in_range 0 [mkInput 1 false 0 0]).
  { unfold first_power_in_range, rate_after. simpl.
    replace (1 - 0) with 1 by lra. rewrite Rpower_1 by lra. lra. }
  apply (proj1 (pixel_escape_value_range 0 [mkInput 1 false 0 0]
                  640 480 320 240 Hp ltac:(lia) ltac:(lia)
                  ltac:(lia) ltac:(lia))).
Defined.

(** ** What a click changes, and what it does not *)

Lemma sidebar_outside_slider (inp : Input) (g : Game) :
  ~ in_slider inp -> zoomSpeed (sidebar inp g) = zoomSpeed g.
Proof.
  intros Hn. unfold sidebar.
  destruct (mousePressed inp) eqn:Hp; [|reflexivity].
  destruct (cursorX inp <? 100)%Z eqn:Hx; [|reflexivity].
  destruct ((cursorY inp >=? 70)%Z && (cursorY inp <=? 270)%Z) eqn:Hy.
  - exfalso. apply Hn. apply andb_true_iff in Hy as [Hlo Hhi].
    apply Z.geb_le in Hlo. apply Z.leb_le in Hhi. apply Z.ltb_lt in Hx.
    repeat split; assumption.
  - destruct ((cursorY inp >=? 300)%Z && (cursorY inp <=? 340)%Z); [|reflexivity].
    unfold toggleFractal. destruct (fractalType _ =? FractalJulia)%Z; reflexivity.
Qed.

Lemma sidebar_outside_toggle (inp : Input) (g : Game) :
  ~ in_toggle inp ->
  fractalType (sidebar inp g) = fractalType g /\
  juliaX (sidebar inp g) = juliaX g /\ juliaY (sidebar inp g) = juliaY g.
Proof.
  intros Hn. unfold sidebar.
  destruct (mousePressed inp) eqn:Hp; [|auto].
  destruct (cursorX inp <? 100)%Z eqn:Hx; [|auto].
  destruct ((cursorY inp >=? 70)%Z && (cursorY inp <=? 270)%Z); [auto|].
  destruct ((cursorY inp >=? 300)%Z && (cursorY inp <=? 340)%Z) eqn:Hy; [|auto].
  exfalso. apply Hn. apply andb_true_iff in Hy as [Hlo Hhi].
  apply Z.geb_le in Hlo. apply Z.leb_le in Hhi. apply Z.ltb_lt in Hx.
  repeat split; assumption.
Qed.

Lemma sidebar_in_toggle (inp : Input) (g : Game) :
  in_toggle inp -> sidebar inp g = toggleFractal g.
Proof.
  intros [Hp [Hx [Hlo Hhi]]]. unfold sidebar. rewrite Hp.
  replace (cursorX inp <? 100)%Z with true by (symmetry; apply Z.ltb_lt; lia).
  replace (cursorY inp <=? 270)%Z with false by (symmetry; apply Z.leb_gt; lia).
  rewrite andb_false_r.
  replace (cursorY inp >=? 300)%Z with true by (symmetry; apply Z.geb_le; lia).
  replace (cursorY inp <=? 340)%Z with true by (symmetry; apply Z.leb_le; lia).
  reflexivity.
Qed.

(** X8.  What [Update] leaves alone: the rate changes only on a press
    in the slider region, the kind and the Julia constant only on a
    press in the toggle region, the two regions are disjoint, and the
    base rectangle and the centre never change; the time of the last
    update is always set to the clock. *)
Theorem Update_frame (inp : Input) (g : Game) :
  (~ in_slider inp -> zoomSpeed (Update inp g) = zoomSpeed g) /\
  (~ in_toggle inp ->
   fractalType (Update inp g) = fractalType g /\
   juliaX (Update inp g) = juliaX g /\ juliaY (Update inp g) = juliaY g) /\
  ~ (in_slider inp /\ in_toggle inp) /\
  (minX (Update inp g) = minX g /\ maxX (Update inp g) = maxX g /\
   minY (Update inp g) = minY g /\ maxY (Update inp g) = maxY g /\
   centerX (Update inp g) = centerX g /\ centerY (Update inp g) = centerY g) /\
  lastUpdate (Update inp g) = now inp.
Proof.
  split; [|split; [|split; [|split]]].
  - intros Hn. unfold Update. rewrite zoomSpeed_advance.
    apply (sidebar_outside_slider inp (set_lastUpdate (now inp) g) Hn).
  - intros Hn. unfold Update, advance. cbn [fractalType juliaX juliaY set_zoom].
    apply (sidebar_outside_toggle inp (set_lastUpdate (now inp) g) Hn).
  - intros [[_ [_ [_ Hs]]] [_ [_ [Ht _]]]]. lia.
  - apply Update_view.
  - apply Update_lastUpdate.
Qed.

Lemma Update_frame_witness :
  let inp := mkInput 1 true 150 100 in
  zoomSpeed (Update inp (main_game 0)) = zoomSpeed (main_game 0) /\
  fractalType (Update inp (main_game 0)) = fractalType (main_game 0).
Proof.
  intros inp.
  destruct (Update_frame inp (main_game 0)) as [Hs [Ht _]].
  split.
  - apply Hs. intros [_ [Hx _]]. simpl in Hx. lia.
  - apply Ht. intros [_ [Hx _]]. simpl in Hx. lia.
Defined.

Lemma Update_in_toggle (inp : Input) (g : Game) :
  in_toggle inp -> kind_ok g ->
  fractalType (Update inp g) = (1 - fractalType g)%Z /\
  zoomSpeed (Update inp g) = zoomSpeed g.
Proof.
  intros Ht Hk. unfold Update. rewrite zoomSpeed_advance.
  unfold advance. cbn [fractalType set_zoom].
  rewrite (sidebar_in_toggle inp _ Ht).
  destruct Hk as [Hk | Hk].
  - rewrite toggleFractal_from_mandelbrot by exact Hk.
    cbn. rewrite Hk. split; reflexivity.
  - rewrite toggleFractal_from_julia by exact Hk.
    cbn. rewrite Hk. split; reflexivity.
Qed.

(** X9.  The toggle acts on every frame in which the button is down
    over it, not once per click: after [n] consecutive such frames the
    kind is the original one when [n] is even and the other one when
    [n] is odd; the rate is unchanged. *)
Theorem held_toggle_alternates (inps : list Input) (g : Game) :
  Forall in_toggle inps ->
  kind_ok g ->
  fractalType (run inps g)
  = (if Nat.even (length inps) then fractalType g else 1 - fractalType g)%Z /\
  zoomSpeed (run inps g) = zoomSpeed g.
Proof.
  revert g. induction inps as [| inp rest IH]; intros g Hall Hk.
  - simpl. split; reflexivity.
  - inversion Hall as [| ? ? Hin Hrest]; subst.
    destruct (Update_in_toggle inp g Hin Hk) as [Hf Hs].
    destruct (IH (Update inp g) Hrest (Update_kind_ok inp g Hk)) as [IHf IHs].
    cbn [run]. rewrite IHf, IHs, Hf, Hs. split; [|reflexivity].
    change (length (inp :: rest)) with (S (length rest)).
    rewrite Nat.even_succ, <- Nat.negb_even.
    destruct (Nat.even (length rest)); cbn [negb]; lia.
Qed.

Lemma held_toggle_alternates_witness :
  let inps := [mkInput 1 true 10 320; mkInput 2 true 10 320] in
  fractalType (run inps (main_game 0)) = fractalType (main_game 0) /\
  zoomSpeed (run inps (main_game 0)) = zoomSpeed (main_game 0).
Proof.
  intros inps.
  apply (held_toggle_alternates inps (main_game 0)).
  - repeat constructor; simpl; lia.
  - left. reflexivity.
Defined.

(** ** Zoom and frame rate *)

(** Clamping twice along a growth is clamping once. *)
Lemma clamp_compose (z a b : R) :
  1 <= z <= 1e15 -> 1 <= a -> 1 <= b ->
  Rmax 1 (Rmin (Rmax 1 (Rmin (z * a) 1e15) * b) 1e15)
  = Rmax 1 (Rmin (z * (a * b)) 1e15).
Proof.
  intros Hz Ha Hb.
  assert (Hza : 1 <= z * a) by nra.
  assert (Hzab : z * a <= z * (a * b)) by nra.
  destruct (Rle_dec (z * a) 1e15) as [Hle | Hgt].
  - rewrite (Rmin_left (z * a)) by exact Hle.
    rewrite (Rmax_right 1 (z * a)) by exact Hza.
    rewrite Rmult_assoc. reflexivity.
  - rewrite (Rmin_right (z * a)) by lra.
    rewrite (Rmax_right 1 1e15) by lra.
    rewrite (Rmin_right (1e15 * b)) by nra.
    rewrite (Rmin_right (z * (a * b))) by lra.
    reflexivity.
Qed.

Lemma Update_idle (inp : Input) (g : Game) :
  mousePressed inp = false ->
  Update inp g
  = set_zoom (Rmax 1 (Rmin (zoom g * Rpower (1 + zoomSpeed g)
                                            (now inp - lastUpdate g)) 1e15))
             (set_lastUpdate (now inp) g).
Proof.
  intros Hp. unfold Update, sidebar. rewrite Hp. reflexivity.
Qed.

(** Two idle updates are one: the zoom reached does not depend on how
    the elapsed time is cut into frames. *)
Lemma Update_idle_merge (i1 i2 : Input) (g : Game) :
  zoom_ok g ->
  lastUpdate g <= now i1 -> now i1 <= now i2 ->
  mousePressed i1 = false -> mousePressed i2 = false ->
  Update i2 (Update i1 g) = Update i2 g.
Proof.
  intros [[Hlo Hhi] Hs] Ht1 Ht2 Hp1 Hp2.
  rewrite (Update_idle i2 (Update i1 g) Hp2), (Update_idle i1 g Hp1),
          (Update_idle i2 g Hp2).
  destruct g as [a b c d cX cY jX jY z s k t].
  cbn [zoom zoomSpeed lastUpdate set_zoom set_lastUpdate] in *.
  unfold set_zoom, set_lastUpdate.
  cbn [minX maxX minY maxY centerX centerY juliaX juliaY zoom zoomSpeed
       fractalType lastUpdate].
  f_equal.
  replace (now i2 - t) with ((now i1 - t) + (now i2 - now i1)) by lra.
  rewrite Rpower_plus.
  apply clamp_compose; [lra | |]; apply Pow_ge_1; lra.
Qed.

Lemma clock_monotone_last (t : R) (inps : list Input) (d : Input) :
  inps <> [] -> clock_monotone t inps -> t <= now (last inps d).
Proof.
  revert t. induction inps as [| inp rest IH]; intros t Hne Hc; [contradiction|].
  destruct Hc as [Ht Hc]. destruct rest as [| inp' rest'].
  - simpl. exact Ht.
  - change (last (inp :: inp' :: rest') d) with (last (inp' :: rest') d).
    apply Rle_trans with (now inp); [exact Ht|].
    apply IH; [discriminate | exact Hc].
Qed.

Lemma last_in (inps : list Input) (d : Input) :
  inps <> [] -> In (last inps d) inps.
Proof.
  induction inps as [| inp rest IH]; intros Hne; [contradiction|].
  destruct rest as [| inp' rest'].
  - left. reflexivity.
  - right. apply IH. discriminate.
Qed.

(** X10.  Frame-rate independence.  Along a session without a press,
    from a clamped zoom, with a rate that is not negative and a clock
    that does not go back, the state reached is the one a single
    update at the last instant reaches: the zoom is
    [min (zoom * (1 + zoomSpeed)^T, 1e15)] for the total elapsed time
    [T], however many frames there were. *)
Theorem idle_session_is_one_update (inps : list Input) (g : Game) (d : Input) :
  zoom_ok g ->
  clock_monotone (lastUpdate g) inps ->
  Forall (fun inp => mousePressed inp = false) inps ->
  inps <> [] ->
  run inps g = Update (last inps d) g /\
  zoom (run inps g)
  = Rmin (zoom g * Rpower (1 + zoomSpeed g)
                          (now (last inps d) - lastUpdate g)) 1e15.
Proof.
  intros Hok Hc Hidle Hne.
  assert (Hrun : run inps g = Update (last inps d) g).
  { revert g Hok Hc. induction inps as [| i1 rest IH]; intros g Hok Hc;
      [contradiction|].
    inversion Hidle as [| ? ? Hp1 Hrest]; subst.
    destruct rest as [| i2 rest'].
    - reflexivity.
    - destruct Hc as [Ht1 Hc].
      change (last (i1 :: i2 :: rest') d) with (last (i2 :: rest') d).
      cbn [run]. change (run rest' (Update i2 (Update i1 g)))
        with (run (i2 :: rest') (Update i1 g)).
      rewrite (IH Hrest ltac:(discriminate) (Update i1 g)).
      + apply Update_idle_merge; try assumption.
        * apply clock_monotone_last; [discriminate | exact Hc].
        * apply (proj1 (Forall_forall _ _) Hrest).
          apply last_in. discriminate.
      + apply Update_zoom_ok. apply Hok.
      + rewrite Update_lastUpdate. exact Hc. }
  split; [exact Hrun|].
  rewrite Hrun.
  assert (Hpl : mousePressed (last inps d) = false).
  { apply (proj1 (Forall_forall _ _) Hidle). apply last_in. exact Hne. }
  rewrite (Update_idle _ g Hpl). cbn [zoom set_zoom].
  pose proof (clock_monotone_last (lastUpdate g) inps d Hne Hc) as Ht.
  destruct Hok as [[Hlo Hhi] Hs].
  pose proof (Pow_ge_1 (zoomSpeed g) (now (last inps d) - lastUpdate g)
                Hs ltac:(lra)) as Hp. unfold Pow in Hp.
  apply Rmax_right. apply Rmin_glb; [nra | lra].
Qed.

Lemma idle_session_is_one_update_witness :
  let g := mkGame (-2.5) 1 (-1.5) 1.5 0 0 0 0 1 0.01 0 0 in
  let inps := [mkInput 1 false 0 0; mkInput 3 false 0 0] in
  run inps g = Update (mkInput 3 false 0 0) g /\
  zoom (run inps g) = Rmin (1 * Rpower (1 + 0.01) (3 - 0)) 1e15.
Proof.
  intros g inps.
  apply (idle_session_is_one_update inps g (mkInput 0 false 0 0)).
  - unfold zoom_ok. simpl. lra.
  - simpl. lra.
  - repeat constructor.
  - discriminate.
Defined.

(** ** The sidebar *)

Lemma int_wrap_small (z : Z) :
  (-9223372036854775808 <= z < 9223372036854775808)%Z -> int_wrap z = z.
Proof.
  intros H. unfold int_wrap. rewrite Z.mod_small by lia. lia.
Qed.

Lemma currentZoomSpeedY_range (speed : R) :
  0 <= speed <= 0.5 -> (70 <= currentZoomSpeedY speed <= 270)%Z.
Proof.
  intros Hs. unfold currentZoomSpeedY, float64. cbv zeta.
  set (v := speed / 0.5 * 200).
  assert (Hv : 0 <= v <= 200) by (unfold v; lra).
  rewrite int_nonneg by lra.
  pose proof (Zfloor_bound v) as [Hlo Hhi].
  assert (0 <= Zfloor v)%Z by (apply Zfloor_lub; simpl; lra).
  assert (Zfloor v <= 200)%Z.
  { apply le_IZR. lra. }
  rewrite int_wrap_small by lia. lia.
Qed.

(** X11.  The slider handle stays on its track: for every rate between
    0 and 0.5 the handle height [drawSidebar] computes is between the
    ends 70 and 270 of the track, and the rate is between 0 and 0.5 in
    every state of a session. *)
Theorem slider_handle_on_track :
  (forall speed : R,
      0 <= speed <= 0.5 -> (70 <= currentZoomSpeedY speed <= 270)%Z) /\
  (forall (t0 : R) (inps : list Input),
      (70 <= currentZoomSpeedY (zoomSpeed (run inps (main_game t0))) <= 270)%Z).
Proof.
  split.
  - exact currentZoomSpeedY_range.
  - intros t0 inps. apply currentZoomSpeedY_range.
    apply run_zoomSpeed_range. cbn. lra.
Qed.

Lemma slider_handle_on_track_witness :
  (70 <= currentZoomSpeedY 0.25 <= 270)%Z.
Proof. apply (proj1 slider_handle_on_track 0.25). lra. Defined.

(** X12.  The controls respond where they are drawn: a press on a pixel
    covered by the track rectangle of [drawSidebar] sets the rate from
    the pixel's height, and a press on a pixel covered by the button
    rectangle toggles the kind; the handle is drawn on the track's
    column and never reaches the button. *)
Theorem sidebar_controls_respond (screenH : Z) (g0 g : Game) (inp : Input) :
  mousePressed inp = true ->
  exists background track handle button,
    drawSidebar screenH g0 = [background; track; handle; button] /\
    (covers track (cursorX inp) (cursorY inp) ->
     zoomSpeed (Update inp g) = (IZR (cursorY inp) - 70) / 200 * 0.5 /\
     fractalType (Update inp g) = fractalType g) /\
    (covers button (cursorX inp) (cursorY inp) ->
     kind_ok g ->
     fractalType (Update inp g) = (1 - fractalType g)%Z /\
     zoomSpeed (Update inp g) = zoomSpeed g) /\
    rect_x handle = rect_x track /\ rect_w handle = rect_w track /\
    (0 <= zoomSpeed g0 <= 0.5 ->
     forall px py, covers handle px py -> ~ covers button px py).
Proof.
  intros Hp. unfold drawSidebar. cbv zeta.
  do 4 eexists. split; [reflexivity|].
  unfold covers. cbn [rect_x rect_y rect_w rect_h].
  split; [|split; [|split; [|split]]].
  - intros [Hx Hy].
    assert (Hs : in_slider inp) by (repeat split; try assumption; lia).
    split.
    + unfold Update. rewrite zoomSpeed_advance.
      destruct Hs as [_ [Hx' Hy']].
      rewrite sidebar_slider by assumption. cbn [zoomSpeed set_zoomSpeed].
      unfold float64. rewrite minus_IZR. lra.
    + unfold Update, advance. cbn [fractalType set_zoom].
      apply (sidebar_outside_toggle inp (set_lastUpdate (now inp) g)).
      intros [_ [_ Ht]]. lia.
  - intros [Hx Hy] Hk. apply Update_in_toggle; [|exact Hk].
    repeat split; try assumption; lia.
  - reflexivity.
  - reflexivity.
  - intros Hs px py [_ Hh] [_ Hb].
    pose proof (currentZoomSpeedY_range (zoomSpeed g0) Hs). lia.
Qed.

Lemma sidebar_controls_respond_witness :
  exists background track handle button,
    drawSidebar 480 (main_game 0) = [background; track; handle; button] /\
    fractalType (Update (mkInput 1 true 50 310) (main_game 0))
    = (1 - fractalType (main_game 0))%Z.
Proof.
  destruct (sidebar_controls_respond 480 (main_game 0) (main_game 0)
              (mkInput 1 true 50 310) eq_refl)
    as [bg [tr [ha [bu [Hd [_ [Hb _]]]]]]].
  exists bg, tr, ha, bu. split; [exact Hd|].
  unfold drawSidebar in Hd. cbv zeta in Hd.
  injection Hd as _ _ _ Hbu. subst bu.
  apply Hb.
  - unfold covers. simpl. lia.
  - left. reflexivity.
Defined.

(** ** The slider on binary64 *)

Module Binary64UIFacts.

Import Binary64UI.

Lemma round_trip_all : forallb round_trip_ok slider_heights = true.
Proof. vm_compute. reflexivity. Qed.

Lemma slider_heights_in (y : Z) : (70 <= y <= 270)%Z -> In y slider_heights.
Proof.
  intros Hy. unfold slider_heights.
  replace y with (70 + Z.of_nat (Z.to_nat (y - 70)))%Z by lia.
  apply (in_map (fun k => (70 + Z.of_nat k)%Z)). apply in_seq. lia.
Qed.

Lemma off_by_one_spec (y : Z) :
  existsb (Z.eqb y) off_by_one = true <-> In y off_by_one.
Proof.
  rewrite existsb_exists. split.
  - intros [z [Hin Heq]]. apply Z.eqb_eq in Heq. subst z. exact Hin.
  - intros Hin. exists y. split; [exact Hin | apply Z.eqb_refl].
Qed.

End Binary64UIFacts.

(** X13.  On binary64 numbers the slider round trip is exact up to one
    pixel: for a press at height [70 <= y <= 270] the rate [Update]
    stores is between 0 and 0.5, and the handle height [drawSidebar]
    computes from it is [y], except at the seven heights 99, 127, 128,
    183, 184, 185 and 186, where rounding and truncation give [y - 1]. *)
Theorem b64_slider_round_trip (y : Z) :
  (70 <= y <= 270)%Z ->
  PrimFloat.leb 0%float (Binary64UI.slider_zoomSpeed y) = true /\
  PrimFloat.leb (Binary64UI.slider_zoomSpeed y) 0.5%float = true /\
  (In y Binary64UI.off_by_one ->
   Binary64UI.currentZoomSpeedY (Binary64UI.slider_zoomSpeed y)
   = Some (y - 1)%Z) /\
  (~ In y Binary64UI.off_by_one ->
   Binary64UI.currentZoomSpeedY (Binary64UI.slider_zoomSpeed y) = Some y).
Proof.
  intros Hy.
  pose proof (proj1 (forallb_forall _ _) Binary64UIFacts.round_trip_all y
                (Binary64UIFacts.slider_heights_in y Hy)) as H.
  unfold Binary64UI.round_trip_ok in H.
  apply andb_true_iff in H as [H H3]. apply andb_true_iff in H as [H1 H2].
  split; [exact H2|]. split; [exact H3|].
  destruct (Binary64UI.currentZoomSpeedY (Binary64UI.slider_zoomSpeed y))
    as [h |]; [|discriminate].
  destruct (existsb (Z.eqb y) Binary64UI.off_by_one) eqn:He.
  - apply Z.eqb_eq in H1. subst h. split; [reflexivity|].
    intros Hn. exfalso. apply Hn.
    apply Binary64UIFacts.off_by_one_spec. exact He.
  - apply Z.eqb_eq in H1. subst h. split; [|reflexivity].
    intros Hin. apply Binary64UIFacts.off_by_one_spec in Hin.
    rewrite Hin in He. discriminate He.
Qed.

Lemma b64_slider_round_trip_witness :
  Binary64UI.currentZoomSpeedY (Binary64UI.slider_zoomSpeed 99) = Some 98%Z /\
  Binary64UI.currentZoomSpeedY (Binary64UI.slider_zoomSpeed 170) = Some 170%Z.
Proof.
  split.
  - apply (b64_slider_round_trip 99); [lia|]. simpl. tauto.
  - apply (b64_slider_round_trip 170); [lia|].
    simpl. intros H. repeat (destruct H as [H | H]; [discriminate H|]).
    exact H.
Defined.

(** ** The palette and the overlay *)

Lemma colorMapping_NoDup : NoDup colorMapping.
Proof.
  unfold colorMapping.
  repeat (constructor; [simpl; intuition discriminate|]).
  constructor.
Qed.

(** X14.  Inside [0 < iterations < maxIter] the colour depends on the
    iteration count modulo 16 and on nothing else: two counts get the
    same colour exactly when they differ by a multiple of 16; in
    particular the colours repeat with period 16. *)
Theorem palette_period (i j maxIter : Z) :
  (0 < i < maxIter)%Z ->
  (0 < j < maxIter)%Z ->
  (getColor i maxIter = getColor j maxIter <-> i mod 16 = j mod 16)%Z.
Proof.
  intros Hi Hj.
  destruct (getColor_inside i maxIter Hi) as [Ei _].
  destruct (getColor_inside j maxIter Hj) as [Ej _].
  rewrite Ei, Ej.
  pose proof (Z.mod_pos_bound i 16 ltac:(lia)) as Bi.
  pose proof (Z.mod_pos_bound j 16 ltac:(lia)) as Bj.
  split.
  - intros He.
    assert (Z.to_nat (i mod 16) = Z.to_nat (j mod 16)).
    { apply (proj1 (NoDup_nth_error colorMapping) colorMapping_NoDup);
        [simpl; lia | exact He]. }
    lia.
  - intros ->. reflexivity.
Qed.

Lemma palette_period_witness :
  getColor 5 100 = getColor 21 100 <-> (5 mod 16 = 21 mod 16)%Z.
Proof. apply (palette_period 5 21 100); lia. Defined.

(** X15.  The overlay names the fractal on screen: in every state of a
    session the name [drawInfo] prints is "Mandelbrot" when [Draw]
    evaluates [mandelbrot] and "Julia" when it evaluates [julia] with
    the stored constant; the name "Unknown" and the zero default of
    [Draw]'s switch never occur. *)
Theorem overlay_names_evaluator (t0 : R) (inps : list Input) :
  let g := run inps (main_game t0) in
  (fractalName (fractalType g) = "Mandelbrot"%string /\
   forall maxIter c,
     pixel_iterations g maxIter c = mandelbrot (fst c) (snd c) maxIter) \/
  (fractalName (fractalType g) = "Julia"%string /\
   forall maxIter c,
     pixel_iterations g maxIter c
     = julia (fst c) (snd c) (juliaX g) (juliaY g) maxIter).
Proof.
  intros g.
  assert (Hk : kind_ok g) by (apply run_kind_ok; left; reflexivity).
  unfold pixel_iterations, fractalName.
  destruct Hk as [Hk | Hk]; rewrite Hk; [left | right]; split; reflexivity.
Qed.

(** ** Escaped points that are drawn like interior points *)



